(** * The patch ledger of the debugger core (patches.cpp)

    A shallow embedding of [patchset], [patchget], [patchdel],
    [patchdelrange], [patchclear], [patchenum] and [patchfile], and the
    properties of the ledger they maintain.

    Conventions.
    - [uint] is the pointer-sized unsigned integer of the build (32 or 64
      bits); it is a [Z] and every subtraction or addition of the source is
      followed by the wrap-around [uint].
    - [unsigned char] is [Byte.byte].
    - The global [std::map<uint, PATCHINFO> patches] is a [gmap Z PATCHINFO]
      that every function receives and returns; loops over it visit the
      entries in ascending key order, as the iterators of [std::map] do.
    - The debugger, the module table, the memory of the debuggee and the
      file mapper are not part of patches.cpp.  What patches.cpp reads from
      them is the record [Env]; what it does to them (memory writes, file
      copies, writes into the mapped file) is returned as a log. *)

From Stdlib Require Import ZArith Lia.
From Stdlib Require Strings.Byte.
From stdpp Require Import gmap strings list fin_maps sorting.

Open Scope Z_scope.

#[global] Instance byte_eq_decision : EqDecision Byte.byte := Byte.byte_eq_dec.

(** ** Data model *)

(** [struct PATCHINFO { char mod[MAX_MODULE_SIZE]; uint addr;
    unsigned char oldbyte; unsigned char newbyte; }].  The field [mod] is
    spelled [mod_] because [mod] is the remainder operator. *)
Record PATCHINFO : Type := mkPATCHINFO {
  mod_ : string;
  addr : Z;
  oldbyte : Byte.byte;
  newbyte : Byte.byte
}.

#[global] Instance PATCHINFO_eq_decision : EqDecision PATCHINFO.
Proof. solve_decision. Defined.

(** [typedef std::map<uint, PATCHINFO> PatchesInfo]. *)
Abbreviation PatchesInfo := (gmap Z PATCHINFO).

(** What patches.cpp asks of the debugger and of the module table at the
    moment of a call. *)
Record Env : Type := mkEnv {
  DbgIsDebugging : bool;
  memisvalidreadptr : Z → bool;
  modbasefromaddr : Z → Z;
  modnamefromaddr : Z → string;
  modhashfromva : Z → Z;
  modbasefromname : string → Z
}.

(** One call [memwrite(hProcess, (void* )a, &b, sizeof(char), 0)]. *)
Definition MemWrite : Type := (Z * Byte.byte)%type.

(** ** Case-insensitive comparison *)

(** [tolower] of the C locale on one character code. *)
Definition tolower (c : Z) : Z :=
  if bool_decide (65 ≤ c ≤ 90) then c + 32 else c.

Definition code (a : Ascii.ascii) : Z := Z.of_nat (Ascii.nat_of_ascii a).

(** [_stricmp]: the difference of the first pair of lowered characters that
    differ, the end of a string counting as the character 0.  A C string
    holds no character 0 before its end; for a [string] that does, the
    end still compares different from it. *)
Fixpoint stricmp (s1 s2 : string) : Z :=
  match s1, s2 with
  | EmptyString, EmptyString => 0
  | EmptyString, String c _ => 0 - Z.max 1 (tolower (code c))
  | String c _, EmptyString => Z.max 1 (tolower (code c))
  | String c1 r1, String c2 r2 =>
      let d := tolower (code c1) - tolower (code c2) in
      if bool_decide (d = 0) then stricmp r1 r2 else d
  end.

(** The lowered characters of a string, used to state what [stricmp]
    decides. *)
Fixpoint lowered (s : string) : list Z :=
  match s with
  | EmptyString => []
  | String c r => tolower (code c) :: lowered r
  end.

(** ** The file mapper *)

(** What [patchfile] asks of the system and of the file mapper: the path of
    a loaded module ([None] when [GetModuleFileNameExA] returns 0), whether
    a copy succeeds, the size, the address and the content of the view
    [StaticFileLoad] maps ([None] when it fails), the pointer
    [ConvertVAtoFileOffsetEx] gives for (FileMapVA, LoadedSize, ImageBase,
    AddressToConvert), 0 being the null pointer, and whether
    [StaticFileUnload] succeeds. *)
Record FileEnv : Type := mkFileEnv {
  GetModuleFileNameExA : Z → option string;
  CopyFileA : string → string → bool;
  StaticFileLoad : string → option (Z * Z * (Z → Byte.byte));
  ConvertVAtoFileOffsetEx : Z → Z → Z → Z → Z;
  StaticFileUnload : string → Z → Z → bool
}.

(** What [patchfile] does outside its own variables, in order. *)
Inductive Event : Type :=
| EvCopyFile (lpExistingFileName lpNewFileName : string)
| EvFileLoad (szFileName : string)
| EvDprintf (n : Z) (modname : string) (offset : Z)
            (cur old new : Byte.byte)
| EvStore (ptr : Z) (b : Byte.byte)
| EvFileUnload (szFileName : string).

(** How a call of [patchfile] ends: it returns [ret], leaving [error] in the
    caller's buffer ([None] when the caller passed a null pointer), or it
    stores through the null pointer. *)
Inductive Outcome : Type :=
| Returns (ret : Z) (error : option string) (log : list Event)
| NullStore (log : list Event).

(** [if(error) strcpy(error, msg); return -1;] *)
Definition fail_with (error : option string) (msg : string)
    (log : list Event) : Outcome :=
  match error with
  | Some _ => Returns (-1) (Some msg) log
  | None => Returns (-1) None log
  end.

(** [strcpy(error, msg); return -1;] *)
Definition fail_unchecked (error : option string) (msg : string)
    (log : list Event) : Outcome :=
  match error with
  | Some _ => Returns (-1) (Some msg) log
  | None => NullStore log
  end.

(** State of the patching loop: the mapped view, [patched], the log. *)
Record LoopState : Type := mkLoopState {
  view : Z → Byte.byte;
  patched : Z;
  done_ : list Event
}.

(** The [for] loop of [patchfile] from index [i] on, over the records that
    are left. *)
Fixpoint patchfile_loop (f : FileEnv) (modname : string)
    (modbase LoadedSize FileMapVA : Z) (i : Z) (patchlist : list PATCHINFO)
    (st : LoopState) : LoopState :=
  match patchlist with
  | [] => st
  | p :: rest =>
      let ptr :=
        ConvertVAtoFileOffsetEx f FileMapVA LoadedSize modbase (addr p) in
      if decide (ptr = 0) then
        patchfile_loop f modname modbase LoadedSize FileMapVA (i + 1) rest st
      else
        patchfile_loop f modname modbase LoadedSize FileMapVA (i + 1) rest
          {| view := λ q, if decide (q = ptr) then newbyte p else view st q;
             patched := patched st + 1;
             done_ := done_ st ++
                      [EvDprintf (i + 1) modname (ptr - FileMapVA)
                                 (view st ptr) (oldbyte p) (newbyte p);
                       EvStore ptr (newbyte p)] |}
  end.

(** [int patchfile(const PATCHINFO* patchlist, int count,
    const char* szFileName, char* error)].  The array and its [count] are
    the list [patchlist]; [error] is [None] for a null pointer and the
    content of the caller's buffer otherwise. *)
Definition patchfile (e : Env) (f : FileEnv) (patchlist : list PATCHINFO)
    (szFileName : string) (error : option string) : Outcome :=
  match patchlist with
  | [] => fail_with error "no patches to apply" []
  | first :: _ =>
      let modname := mod_ first in
      if existsb (λ p, negb (bool_decide (stricmp (mod_ p) modname = 0)))
                 patchlist
      then fail_with error ("not all patches are in module " +:+ modname) []
      else
        let modbase := modbasefromname e modname in
        if decide (modbase = 0) then
          fail_with error ("failed to get base of module " +:+ modname) []
        else
          match GetModuleFileNameExA f modbase with
          | None =>
              fail_with error
                ("failed to get module path of module " +:+ modname) []
          | Some szOriginalName =>
              let copy := [EvCopyFile szOriginalName szFileName] in
              if negb (CopyFileA f szOriginalName szFileName) then
                fail_with error
                  "failed to make a copy of the original file (patch target is in use?)"
                  copy
              else
                match StaticFileLoad f szFileName with
                | Some (LoadedSize, FileMapVA, content) =>
                    let st :=
                      patchfile_loop f modname modbase LoadedSize FileMapVA
                        0 patchlist
                        {| view := content; patched := 0;
                           done_ := copy ++ [EvFileLoad szFileName] |} in
                    let log := done_ st ++ [EvFileUnload szFileName] in
                    if negb (StaticFileUnload f szFileName LoadedSize
                                              FileMapVA)
                    then fail_with error "StaticFileUnload failed" log
                    else Returns (patched st) error log
                | None =>
                    fail_unchecked error "StaticFileLoad failed"
                      (copy ++ [EvFileLoad szFileName])
                end
          end
  end.

(** The stores into the mapped file that a log holds, in order. *)
Definition stores (log : list Event) : list (Z * Byte.byte) :=
  omap (λ ev, match ev with EvStore ptr b => Some (ptr, b) | _ => None end)
       log.

(** ** The ledger *)

Section Ledger.

(** Width of [uint] and of [size_t] in bits. *)
Variable uint_bits : Z.

Definition uint (x : Z) : Z := x mod 2 ^ uint_bits.

(** Entries in iteration order ([begin()] to [end()]): ascending keys. *)
Definition key_le (a b : Z * PATCHINFO) : Prop := a.1 ≤ b.1.

#[local] Instance key_le_dec : RelDecision key_le.
Proof. intros a b. unfold key_le. apply _. Defined.

Definition entries (patches : PatchesInfo) : list (Z * PATCHINFO) :=
  merge_sort key_le (map_to_list patches).

(** [bool patchset(uint addr, unsigned char oldbyte, unsigned char newbyte)];
    the arguments are [va], [old] and [new]. *)
Definition patchset (e : Env) (patches : PatchesInfo)
    (va : Z) (old new : Byte.byte) : bool * PatchesInfo :=
  if negb (DbgIsDebugging e) || negb (memisvalidreadptr e va) then
    (false, patches)
  else if decide (old = new) then
    (true, patches)
  else
    let newPatch :=
      {| mod_ := modnamefromaddr e va;
         addr := uint (va - modbasefromaddr e va);
         oldbyte := old;
         newbyte := new |} in
    let key := modhashfromva e va in
    match patches !! key with
    | Some found =>
        if decide (oldbyte found = new) then
          (true, delete key patches)
        else
          let newPatch :=
            {| mod_ := mod_ newPatch;
               addr := addr newPatch;
               oldbyte := oldbyte found;
               newbyte := newbyte newPatch |} in
          (true, <[key := newPatch]> patches)
    | None => (true, <[key := newPatch]> patches)
    end.

(** [bool patchget(uint addr, PATCHINFO* patch)].  [patch] tells whether the
    pointer is non-null; the second component is what is stored through
    it. *)
Definition patchget (e : Env) (patches : PatchesInfo)
    (va : Z) (patch : bool) : bool * option PATCHINFO :=
  if negb (DbgIsDebugging e) then (false, None)
  else
    match patches !! modhashfromva e va with
    | None => (false, None)
    | Some found =>
        if patch then
          (true, Some {| mod_ := mod_ found;
                         addr := uint (addr found + modbasefromaddr e va);
                         oldbyte := oldbyte found;
                         newbyte := newbyte found |})
        else (bool_decide (oldbyte found ≠ newbyte found), None)
    end.

(** [bool patchdel(uint addr, bool restore)]: result, ledger and the
    calls of [memwrite]. *)
Definition patchdel (e : Env) (patches : PatchesInfo)
    (va : Z) (restore : bool) : bool * PatchesInfo * list MemWrite :=
  if negb (DbgIsDebugging e) then (false, patches, [])
  else
    let key := modhashfromva e va in
    match patches !! key with
    | None => (false, patches, [])
    | Some found =>
        let written :=
          if restore
          then [(uint (addr found + modbasefromaddr e va), oldbyte found)]
          else [] in
        (true, delete key patches, written)
    end.

(** The test of the [while] loop of [patchdelrange] at one entry. *)
Definition range_hit (bDelAll : bool) (start end_ : Z)
    (i : Z * PATCHINFO) : bool :=
  bDelAll || (bool_decide (start ≤ addr i.2) && bool_decide (addr i.2 < end_)).

(** The body of the [while] loop of [patchdelrange] at one entry. *)
Definition patchdelrange_body (bDelAll : bool) (modbase start end_ : Z)
    (restore : bool) (st : PatchesInfo * list MemWrite)
    (i : Z * PATCHINFO) : PatchesInfo * list MemWrite :=
  if range_hit bDelAll start end_ i then
    (delete i.1 st.1,
     if restore
     then st.2 ++ [(uint (addr i.2 + modbase), oldbyte i.2)]
     else st.2)
  else st.

(** [void patchdelrange(uint start, uint end, bool restore)].  [~0] is the
    largest [uint]. *)
Definition patchdelrange (e : Env) (patches : PatchesInfo)
    (start end_ : Z) (restore : bool) : PatchesInfo * list MemWrite :=
  if negb (DbgIsDebugging e) then (patches, [])
  else
    let bDelAll := bool_decide (start = 0) && bool_decide (end_ = uint (-1)) in
    let modbase := modbasefromaddr e start in
    if decide (modbase ≠ modbasefromaddr e end_) then (patches, [])
    else
      let start := uint (start - modbase) in
      let end_ := uint (end_ - modbase) in
      foldl (patchdelrange_body bDelAll modbase start end_ restore)
            (patches, []) (entries patches).

(** One step of a loop that erases the entries selected by [hit] and moves
    on over the others: [if(hit) patches.erase(i++); else i++;]. *)
Definition erase_if (hit : Z * PATCHINFO → bool) (ps : PatchesInfo)
    (i : Z * PATCHINFO) : PatchesInfo :=
  if hit i then delete i.1 ps else ps.

(** [void patchclear(const char* mod)]; the argument is [name], and [None]
    is the null pointer. *)
Definition patchclear (patches : PatchesInfo) (name : option string)
    : PatchesInfo :=
  match name with
  | None => ∅
  | Some EmptyString => ∅
  | Some m =>
      foldl (erase_if (λ i, bool_decide (stricmp (mod_ i.2) m = 0)))
            patches (entries patches)
  end.

(** [sizeof(LOOPSINFO)]: the structure is declared in a header outside
    patches.cpp. *)
Variable sizeof_LOOPSINFO : Z.

(** [bool patchenum(PATCHINFO* patcheslist, size_t* cbsize)].  The
    arguments tell which pointers are non-null; the result carries the
    records stored into [patcheslist] (at indices 0, 1, ...) and the value
    stored into [*cbsize].  The source never looks at the capacity of
    [patcheslist]. *)
Definition patchenum (e : Env) (patches : PatchesInfo)
    (patcheslist cbsize : bool) : bool * option (list PATCHINFO) * option Z :=
  if negb (DbgIsDebugging e) then (false, None, None)
  else if negb patcheslist && negb cbsize then (false, None, None)
  else if negb patcheslist && cbsize then
    (true, None, Some (uint (Z.of_nat (size patches) * sizeof_LOOPSINFO)))
  else
    (true,
     Some (map (λ i : Z * PATCHINFO,
                  {| mod_ := mod_ i.2;
                     addr := uint (addr i.2 + modbasefromname e (mod_ i.2));
                     oldbyte := oldbyte i.2;
                     newbyte := newbyte i.2 |})
               (entries patches)),
     None).

(** *** Sequences of calls *)

(** Calls [patchset(va, o1, n1)], [patchset(va, o2, n2)], ... on one
    address, in order: what each call returned and the ledger at the end. *)
Fixpoint patchset_seq (e : Env) (patches : PatchesInfo) (va : Z)
    (calls : list (Byte.byte * Byte.byte)) : list bool * PatchesInfo :=
  match calls with
  | [] => ([], patches)
  | c :: rest =>
      let r := patchset e patches va c.1 c.2 in
      let rs := patchset_seq e r.2 va rest in
      (r.1 :: rs.1, rs.2)
  end.

(** No call of the sequence passes, as its new byte, the [oldbyte] of the
    record it finds at the key of [va]. *)
Fixpoint never_collapses (e : Env) (patches : PatchesInfo) (va : Z)
    (calls : list (Byte.byte * Byte.byte)) : bool :=
  match calls with
  | [] => true
  | c :: rest =>
      bool_decide (oldbyte <$> patches !! modhashfromva e va ≠ Some c.2)
      && never_collapses e (patchset e patches va c.1 c.2).2 va rest
  end.

(** No record of the ledger has its original byte as its current byte. *)
Definition all_effective (patches : PatchesInfo) : Prop :=
  ∀ k r, patches !! k = Some r → oldbyte r ≠ newbyte r.

(** The operations that change the ledger. *)
Inductive Op : Type :=
| OpSet (va : Z) (old new : Byte.byte)
| OpDel (va : Z) (restore : bool)
| OpDelRange (start end_ : Z) (restore : bool)
| OpClear (name : option string).

Definition apply_op (e : Env) (patches : PatchesInfo) (o : Op)
    : PatchesInfo :=
  match o with
  | OpSet va old new => (patchset e patches va old new).2
  | OpDel va restore => (patchdel e patches va restore).1.2
  | OpDelRange start end_ restore =>
      (patchdelrange e patches start end_ restore).1
  | OpClear name => patchclear patches name
  end.

(** The ledger after a history of operations, each run in the environment
    of its own moment, starting from the empty ledger. *)
Definition run (history : list (Env * Op)) : PatchesInfo :=
  foldl (λ ps s, apply_op s.1 ps s.2) ∅ history.

End Ledger.

(** ** A session used in the examples

    Two modules are loaded: app.exe at 0x400000 and lib.dll at 0x10000000,
    0x100000 bytes each.  The hash of an address is a constant of its
    module plus the offset of the address in it. *)
Module Demo.

Definition in_app (a : Z) : bool :=
  bool_decide (4194304 ≤ a < 5242880).
Definition in_lib (a : Z) : bool :=
  bool_decide (268435456 ≤ a < 269484032).

Definition session : Env :=
  {| DbgIsDebugging := true;
     memisvalidreadptr := λ a, in_app a || in_lib a;
     modbasefromaddr := λ a,
       if in_app a then 4194304 else if in_lib a then 268435456 else 0;
     modnamefromaddr := λ a,
       if in_app a then "app.exe" else if in_lib a then "lib.dll" else "";
     modhashfromva := λ a,
       if in_app a then 2684354560 + (a - 4194304)
       else if in_lib a then 2952790016 + (a - 268435456) else a;
     modbasefromname := λ n,
       if decide (stricmp n "app.exe" = 0) then 4194304
       else if decide (stricmp n "lib.dll" = 0) then 268435456 else 0 |}.

(** The same module table with no debuggee running. *)
Definition stopped : Env :=
  {| DbgIsDebugging := false;
     memisvalidreadptr := λ _, false;
     modbasefromaddr := modbasefromaddr session;
     modnamefromaddr := modnamefromaddr session;
     modhashfromva := modhashfromva session;
     modbasefromname := modbasefromname session |}.

(** The session after app.exe was unloaded and loaded again at 0x500000:
    the hash of an address still is the constant of its module plus its
    offset. *)
Definition reloaded : Env :=
  {| DbgIsDebugging := true;
     memisvalidreadptr := λ a, bool_decide (5242880 ≤ a < 6291456);
     modbasefromaddr := λ a,
       if bool_decide (5242880 ≤ a < 6291456) then 5242880 else 0;
     modnamefromaddr := λ a,
       if bool_decide (5242880 ≤ a < 6291456) then "app.exe" else "";
     modhashfromva := λ a,
       if bool_decide (5242880 ≤ a < 6291456)
       then 2684354560 + (a - 5242880) else a;
     modbasefromname := λ n,
       if decide (stricmp n "app.exe" = 0) then 5242880 else 0 |}.

(** One patch in app.exe, at 0x401000. *)
Definition one_patch : PatchesInfo :=
  (patchset 32 session ∅ 4198400 Byte.x90 Byte.xcc).2.

(** A second patch at the same offset 0x1000 of lib.dll. *)
Definition two_patches : PatchesInfo :=
  (patchset 32 session one_patch 268439552 Byte.x55 Byte.xc3).2.

(** The files of the session: app.exe is on disk, copies succeed, and the
    mapped image has one section backed by the file, holding the addresses
    from base + 0x1000 to base + 0x2000 at file offset 0x400. *)
Definition files : FileEnv :=
  {| GetModuleFileNameExA := λ b,
       if decide (b = 4194304) then Some "C:/debuggee/app.exe" else None;
     CopyFileA := λ _ _, true;
     StaticFileLoad := λ _, Some (12288, 117440512, λ _, Byte.x00);
     ConvertVAtoFileOffsetEx := λ FileMapVA LoadedSize ImageBase a,
       if bool_decide (ImageBase + 4096 ≤ a < ImageBase + 8192)
       then FileMapVA + 1024 + (a - ImageBase - 4096) else 0;
     StaticFileUnload := λ _ _ _, true |}.

(** The same files when the copy cannot be mapped. *)
Definition unmappable : FileEnv :=
  {| GetModuleFileNameExA := GetModuleFileNameExA files;
     CopyFileA := CopyFileA files;
     StaticFileLoad := λ _, None;
     ConvertVAtoFileOffsetEx := ConvertVAtoFileOffsetEx files;
     StaticFileUnload := StaticFileUnload files |}.

(** The same files when the patched copy cannot be unmapped. *)
Definition unflushable : FileEnv :=
  {| GetModuleFileNameExA := GetModuleFileNameExA files;
     CopyFileA := CopyFileA files;
     StaticFileLoad := StaticFileLoad files;
     ConvertVAtoFileOffsetEx := ConvertVAtoFileOffsetEx files;
     StaticFileUnload := λ _ _ _, false |}.

(** Three records of app.exe as [patchenum] hands them out (absolute
    addresses); the second lies outside the section backed by the file. *)
Definition app_records : list PATCHINFO :=
  [ {| mod_ := "app.exe"; addr := 4198400;
       oldbyte := Byte.x90; newbyte := Byte.xcc |};
    {| mod_ := "app.exe"; addr := 4214784;
       oldbyte := Byte.x00; newbyte := Byte.x01 |};
    {| mod_ := "APP.EXE"; addr := 4198404;
       oldbyte := Byte.x74; newbyte := Byte.xeb |} ].

(** Records of two modules. *)
Definition mixed_records : list PATCHINFO :=
  [ {| mod_ := "app.exe"; addr := 4198400;
       oldbyte := Byte.x90; newbyte := Byte.xcc |};
    {| mod_ := "lib.dll"; addr := 268439552;
       oldbyte := Byte.x55; newbyte := Byte.xc3 |} ].

End Demo.

(** * Properties *)

(** ** Iteration over the ledger *)

Lemma elem_of_entries (patches : PatchesInfo) k r :
  (k, r) ∈ entries patches ↔ patches !! k = Some r.
Proof.
  unfold entries. rewrite merge_sort_Permutation.
  apply elem_of_map_to_list.
Qed.

Lemma length_entries (patches : PatchesInfo) :
  length (entries patches) = size patches.
Proof.
  unfold entries. rewrite merge_sort_Permutation.
  apply length_map_to_list.
Qed.

Lemma Sorted_entries (patches : PatchesInfo) :
  Sorted key_le (entries patches).
Proof.
  apply Sorted_merge_sort. intros a b. unfold key_le. lia.
Qed.

Lemma NoDup_entries (patches : PatchesInfo) : NoDup (entries patches).
Proof.
  unfold entries. rewrite merge_sort_Permutation.
  apply NoDup_map_to_list.
Qed.

Lemma erase_if_fold_lookup hit (l : list (Z * PATCHINFO)) (ps : PatchesInfo) k :
  foldl (erase_if hit) ps l !! k =
  if existsb (λ i, bool_decide (i.1 = k) && hit i) l then None else ps !! k.
Proof.
  revert ps. induction l as [|i l IH]; intros ps; simpl; [done|].
  rewrite IH. unfold erase_if.
  destruct (existsb _ l); simpl; [by rewrite orb_true_r|].
  rewrite orb_false_r.
  destruct (hit i); simpl.
  - case_bool_decide as Hk; simpl.
    + subst k. apply lookup_delete_eq.
    + by apply lookup_delete_ne.
  - by rewrite andb_false_r.
Qed.

Lemma erase_if_entries_lookup hit (patches : PatchesInfo) k :
  foldl (erase_if hit) patches (entries patches) !! k =
  match patches !! k with
  | Some r => if hit (k, r) then None else Some r
  | None => None
  end.
Proof.
  rewrite erase_if_fold_lookup.
  destruct (patches !! k) as [r|] eqn:Hk.
  - destruct (hit (k, r)) eqn:Hh.
    + destruct (existsb _ _) eqn:Hex; [done|].
      exfalso. apply not_true_iff_false in Hex. apply Hex.
      apply existsb_exists. exists (k, r). split.
      * apply list_elem_of_In, elem_of_entries, Hk.
      * simpl. rewrite Hh. by rewrite bool_decide_eq_true_2.
    + destruct (existsb _ _) eqn:Hex; [|done].
      apply existsb_exists in Hex as ([k' r'] & Hin & Hb).
      apply list_elem_of_In, elem_of_entries in Hin.
      apply andb_prop in Hb as [Hb1 Hb2]. simpl in Hb1.
      apply bool_decide_eq_true_1 in Hb1. subst k'.
      congruence.
  - destruct (existsb _ _) eqn:Hex; done.
Qed.

Lemma erase_if_entries_subseteq hit (patches : PatchesInfo) k r :
  foldl (erase_if hit) patches (entries patches) !! k = Some r →
  patches !! k = Some r.
Proof.
  rewrite erase_if_entries_lookup.
  destruct (patches !! k) as [r'|]; [|done].
  by destruct (hit (k, r')).
Qed.

(** ** What [stricmp] decides *)

Lemma stricmp_lowered s1 s2 : stricmp s1 s2 = 0 ↔ lowered s1 = lowered s2.
Proof.
  revert s2. induction s1 as [|c1 r1 IH]; intros [|c2 r2]; simpl.
  - done.
  - split; [lia|done].
  - split; [lia|done].
  - case_bool_decide as Hd.
    + rewrite IH. split; intros Heq.
      * f_equal; [lia|done].
      * by injection Heq.
    + split; [done|]. intros Heq. injection Heq as Hc _. lia.
Qed.

Lemma stricmp_refl s : stricmp s s = 0.
Proof. by apply stricmp_lowered. Qed.

(** ** The ledger *)

Section LedgerFacts.

Variable uint_bits : Z.

(** *** [patchdelrange] *)

Lemma patchdelrange_body_ledger bDelAll modbase start end_ restore l st :
  (foldl (patchdelrange_body uint_bits bDelAll modbase start end_ restore)
         st l).1 =
  foldl (erase_if (range_hit bDelAll start end_)) st.1 l.
Proof.
  revert st. induction l as [|i l IH]; intros st; simpl; [done|].
  rewrite IH. f_equal.
  unfold patchdelrange_body, erase_if.
  by destruct (range_hit _ _ _ i).
Qed.

Lemma patchdelrange_body_writes bDelAll modbase start end_ restore l st :
  (foldl (patchdelrange_body uint_bits bDelAll modbase start end_ restore)
         st l).2 =
  st.2 ++
  (if restore
   then map (λ i : Z * PATCHINFO,
               (uint uint_bits (addr i.2 + modbase), oldbyte i.2))
            (List.filter (range_hit bDelAll start end_) l)
   else []).
Proof.
  revert st. induction l as [|i l IH]; intros st; simpl.
  - destruct restore; by rewrite app_nil_r.
  - rewrite IH. unfold patchdelrange_body.
    destruct (range_hit _ _ _ i), restore; simpl; try done.
    by rewrite <- app_assoc.
Qed.

(** The ledger after [patchdelrange], entry by entry, when the call gets
    as far as the loop. *)
Lemma patchdelrange_lookup e (patches : PatchesInfo) start end_ restore k :
  DbgIsDebugging e = true →
  modbasefromaddr e start = modbasefromaddr e end_ →
  (patchdelrange uint_bits e patches start end_ restore).1 !! k =
  match patches !! k with
  | Some r =>
      if range_hit
           (bool_decide (start = 0) && bool_decide (end_ = uint uint_bits (-1)))
           (uint uint_bits (start - modbasefromaddr e start))
           (uint uint_bits (end_ - modbasefromaddr e start)) (k, r)
      then None else Some r
  | None => None
  end.
Proof.
  intros Hdbg Hbase. unfold patchdelrange. rewrite Hdbg. simpl.
  destruct (decide _) as [Hne|_]; [done|].
  rewrite patchdelrange_body_ledger. simpl.
  apply erase_if_entries_lookup.
Qed.

(** Outside the wildcard, a range deletion removes every record whose
    offset lies in the range, of whatever module. *)
Lemma patchdelrange_removes_range e (patches : PatchesInfo) start end_ restore k r :
  DbgIsDebugging e = true →
  modbasefromaddr e start = modbasefromaddr e end_ →
  patches !! k = Some r →
  uint uint_bits (start - modbasefromaddr e start) ≤ addr r
    < uint uint_bits (end_ - modbasefromaddr e start) →
  (patchdelrange uint_bits e patches start end_ restore).1 !! k = None.
Proof.
  intros Hdbg Hbase Hk [Hlo Hhi].
  rewrite patchdelrange_lookup, Hk by done.
  unfold range_hit. simpl.
  rewrite (bool_decide_eq_true_2 _ Hlo), (bool_decide_eq_true_2 _ Hhi).
  by rewrite orb_true_r.
Qed.

(** Outside the wildcard, a range deletion leaves every record whose offset
    lies outside the range as it is. *)
Lemma patchdelrange_keeps_outside e (patches : PatchesInfo) start end_ restore k :
  ¬ (start = 0 ∧ end_ = uint uint_bits (-1)) →
  (∀ r, patches !! k = Some r →
        ¬ (uint uint_bits (start - modbasefromaddr e start) ≤ addr r
           < uint uint_bits (end_ - modbasefromaddr e start))) →
  (patchdelrange uint_bits e patches start end_ restore).1 !! k = patches !! k.
Proof.
  intros Hwild Hout.
  destruct (DbgIsDebugging e) eqn:Hdbg;
    [|by unfold patchdelrange; rewrite Hdbg].
  destruct (decide (modbasefromaddr e start = modbasefromaddr e end_))
    as [Hbase|Hbase].
  - rewrite patchdelrange_lookup by done.
    destruct (patches !! k) as [r|] eqn:Hk; [|done].
    specialize (Hout r eq_refl).
    unfold range_hit. simpl.
    assert (bool_decide (start = 0)
            && bool_decide (end_ = uint uint_bits (-1)) = false) as ->.
    { do 2 case_bool_decide; simpl; try done. tauto. }
    simpl. do 2 case_bool_decide; simpl; try done. tauto.
  - unfold patchdelrange. rewrite Hdbg. simpl.
    by destruct (decide _).
Qed.

(** The wildcard empties the ledger when the addresses 0 and [~0] resolve
    to the same base (neither lies in a module). *)
Lemma patchdelrange_wildcard_empties e (patches : PatchesInfo) restore :
  DbgIsDebugging e = true →
  modbasefromaddr e 0 = modbasefromaddr e (uint uint_bits (-1)) →
  (patchdelrange uint_bits e patches 0 (uint uint_bits (-1)) restore).1 = ∅.
Proof.
  intros Hdbg Hbase. apply map_empty. intros k.
  rewrite patchdelrange_lookup by done.
  destruct (patches !! k); [|done].
  unfold range_hit. by rewrite !bool_decide_eq_true_2 by done.
Qed.

(** What the wildcard writes when asked to restore: each original byte at
    the record's offset plus the base that address 0 resolves to. *)
Lemma patchdelrange_wildcard_writes e (patches : PatchesInfo) :
  DbgIsDebugging e = true →
  modbasefromaddr e 0 = modbasefromaddr e (uint uint_bits (-1)) →
  (patchdelrange uint_bits e patches 0 (uint uint_bits (-1)) true).2 =
  map (λ i : Z * PATCHINFO,
         (uint uint_bits (addr i.2 + modbasefromaddr e 0), oldbyte i.2))
      (entries patches).
Proof.
  intros Hdbg Hbase. unfold patchdelrange. rewrite Hdbg. simpl.
  destruct (decide _) as [Hne|_]; [done|].
  rewrite patchdelrange_body_writes. simpl. f_equal.
  rewrite !bool_decide_eq_true_2 by done. simpl.
  induction (entries patches) as [|i l IH]; simpl; [done|]. by f_equal.
Qed.

(** *** [patchset] *)

Lemma patchset_result e (patches : PatchesInfo) va o n :
  (patchset uint_bits e patches va o n).1 =
  DbgIsDebugging e && memisvalidreadptr e va.
Proof.
  unfold patchset.
  destruct (DbgIsDebugging e), (memisvalidreadptr e va); simpl; try done.
  destruct (decide (o = n)); [done|].
  destruct (patches !! _) as [found|]; [|done].
  by destruct (decide _).
Qed.

Lemma patchset_refused e (patches : PatchesInfo) va o n :
  (patchset uint_bits e patches va o n).1 = false →
  (patchset uint_bits e patches va o n).2 = patches.
Proof.
  rewrite patchset_result. unfold patchset.
  by destruct (DbgIsDebugging e), (memisvalidreadptr e va).
Qed.

Lemma patchset_fresh e (patches : PatchesInfo) va o n :
  (patchset uint_bits e patches va o n).1 = true →
  o ≠ n →
  patches !! modhashfromva e va = None →
  (patchset uint_bits e patches va o n).2 =
  <[modhashfromva e va :=
      {| mod_ := modnamefromaddr e va;
         addr := uint uint_bits (va - modbasefromaddr e va);
         oldbyte := o; newbyte := n |}]> patches.
Proof.
  rewrite patchset_result. intros Hok Hon Hk. unfold patchset.
  rewrite Hk.
  destruct (DbgIsDebugging e), (memisvalidreadptr e va); try done. simpl.
  by destruct (decide (o = n)).
Qed.

Lemma patchset_consolidates e (patches : PatchesInfo) va o n found :
  (patchset uint_bits e patches va o n).1 = true →
  o ≠ n →
  patches !! modhashfromva e va = Some found →
  oldbyte found ≠ n →
  (patchset uint_bits e patches va o n).2 =
  <[modhashfromva e va :=
      {| mod_ := modnamefromaddr e va;
         addr := uint uint_bits (va - modbasefromaddr e va);
         oldbyte := oldbyte found; newbyte := n |}]> patches.
Proof.
  rewrite patchset_result. intros Hok Hon Hk Hf. unfold patchset.
  rewrite Hk.
  destruct (DbgIsDebugging e), (memisvalidreadptr e va); try done. simpl.
  destruct (decide (o = n)); [done|].
  by destruct (decide (oldbyte found = n)).
Qed.

Lemma patchset_undoes e (patches : PatchesInfo) va o n found :
  (patchset uint_bits e patches va o n).1 = true →
  o ≠ n →
  patches !! modhashfromva e va = Some found →
  oldbyte found = n →
  (patchset uint_bits e patches va o n).2 =
  delete (modhashfromva e va) patches.
Proof.
  rewrite patchset_result. intros Hok Hon Hk Hf. unfold patchset.
  rewrite Hk.
  destruct (DbgIsDebugging e), (memisvalidreadptr e va); try done. simpl.
  destruct (decide (o = n)); [done|].
  by destruct (decide (oldbyte found = n)).
Qed.

Lemma last_cons_default {A} (c d : A) (l : list A) :
  List.last (c :: l) d = List.last l c.
Proof.
  revert c d. induction l as [|x l IH]; intros c d; [done|].
  change (List.last (c :: x :: l) d) with (List.last (x :: l) d).
  by rewrite !IH.
Qed.

(** Once a record is stored for [va], a chain of effective calls that
    never collapses keeps its original byte and ends on the last new
    byte. *)
Lemma patchset_seq_keeps_original e va calls :
  ∀ (patches : PatchesInfo) found,
  patches !! modhashfromva e va = Some found →
  Forall (λ c : Byte.byte * Byte.byte, c.1 ≠ c.2) calls →
  Forall (λ b, b = true) (patchset_seq uint_bits e patches va calls).1 →
  never_collapses uint_bits e patches va calls = true →
  ∃ r, (patchset_seq uint_bits e patches va calls).2 !! modhashfromva e va
       = Some r
       ∧ oldbyte r = oldbyte found
       ∧ newbyte r = List.last (map snd calls) (newbyte found).
Proof.
  induction calls as [|[o n] rest IH]; intros patches found Hk Hne Hok Hnc.
  - exists found. by simpl.
  - change (map snd ((o, n) :: rest)) with (n :: map snd rest).
    rewrite last_cons_default. simpl in *.
    apply Forall_cons in Hne as [Hon Hne].
    apply Forall_cons in Hok as [Hok1 Hok].
    apply andb_prop in Hnc as [Hn1 Hnc].
    apply bool_decide_eq_true_1 in Hn1. rewrite Hk in Hn1. simpl in *.
    assert (oldbyte found ≠ n) as Hfn by congruence.
    pose proof (patchset_consolidates _ _ _ _ _ _ Hok1 Hon Hk Hfn) as Heq.
    rewrite Heq in Hok, Hnc |- *.
    edestruct IH as (r & Hr & Ho & Hl); [apply lookup_insert_eq|done..|].
    exists r. by rewrite Hr, Ho, Hl.
Qed.

(** *** The invariant of the ledger *)

Lemma all_effective_empty : all_effective ∅.
Proof. intros k r. by rewrite lookup_empty. Qed.

Lemma all_effective_patchset e (patches : PatchesInfo) va o n :
  all_effective patches →
  all_effective (patchset uint_bits e patches va o n).2.
Proof.
  intros Hinv.
  destruct (patchset uint_bits e patches va o n).1 eqn:Hok;
    [|by rewrite patchset_refused].
  destruct (decide (o = n)) as [->|Hon].
  { unfold patchset. rewrite patchset_result in Hok.
    destruct (DbgIsDebugging e), (memisvalidreadptr e va); try done. simpl.
    by destruct (decide (n = n)). }
  destruct (patches !! modhashfromva e va) as [found|] eqn:Hk.
  - destruct (decide (oldbyte found = n)) as [Hf|Hf].
    + rewrite (patchset_undoes _ _ _ _ _ found) by done.
      intros k r Hr. apply lookup_delete_Some in Hr as [_ Hr]. eauto.
    + rewrite (patchset_consolidates _ _ _ _ _ found) by done.
      intros k r Hr. apply lookup_insert_Some in Hr as [[_ <-]|[_ Hr]];
        [done|eauto].
  - rewrite patchset_fresh by done.
    intros k r Hr. apply lookup_insert_Some in Hr as [[_ <-]|[_ Hr]];
      [done|eauto].
Qed.

Lemma all_effective_patchdel e (patches : PatchesInfo) va restore :
  all_effective patches →
  all_effective (patchdel uint_bits e patches va restore).1.2.
Proof.
  intros Hinv. unfold patchdel.
  destruct (DbgIsDebugging e); [|done]. simpl.
  destruct (patches !! _); [|done]. simpl.
  intros k r Hr. apply lookup_delete_Some in Hr as [_ Hr]. eauto.
Qed.

Lemma all_effective_patchdelrange e (patches : PatchesInfo) start end_ restore :
  all_effective patches →
  all_effective (patchdelrange uint_bits e patches start end_ restore).1.
Proof.
  intros Hinv. unfold patchdelrange.
  destruct (DbgIsDebugging e); [|done]. simpl.
  destruct (decide _); [done|].
  rewrite patchdelrange_body_ledger. simpl.
  intros k r Hr. apply erase_if_entries_subseteq in Hr. eauto.
Qed.

Lemma all_effective_patchclear (patches : PatchesInfo) name :
  all_effective patches → all_effective (patchclear patches name).
Proof.
  intros Hinv. unfold patchclear.
  destruct name as [[|c m]|]; try apply all_effective_empty.
  intros k r Hr. apply erase_if_entries_subseteq in Hr. eauto.
Qed.

Lemma all_effective_apply_op e (patches : PatchesInfo) o :
  all_effective patches → all_effective (apply_op uint_bits e patches o).
Proof.
  destruct o; simpl;
    auto using all_effective_patchset, all_effective_patchdel,
               all_effective_patchdelrange, all_effective_patchclear.
Qed.

Lemma all_effective_foldl (history : list (Env * Op)) (patches : PatchesInfo) :
  all_effective patches →
  all_effective (foldl (λ ps s, apply_op uint_bits s.1 ps s.2) patches history).
Proof.
  revert patches. induction history as [|s history IH]; intros patches Hinv;
    simpl; [done|].
  by apply IH, all_effective_apply_op.
Qed.

(** With no debuggee running nothing enters an empty ledger, so a ledger
    whose whole history ran with no debuggee is empty. *)
Lemma apply_op_stopped e o :
  DbgIsDebugging e = false → apply_op uint_bits e ∅ o = ∅.
Proof.
  intros Hdbg. destruct o as [va old new|va restore|start end_ restore|name];
    simpl.
  - unfold patchset. by rewrite Hdbg.
  - unfold patchdel. by rewrite Hdbg.
  - unfold patchdelrange. by rewrite Hdbg.
  - unfold patchclear. by destruct name as [[|c m]|].
Qed.

Lemma run_stopped e (history : list (Env * Op)) :
  DbgIsDebugging e = false →
  Forall (λ s, s.1 = e) history →
  run uint_bits history = ∅.
Proof.
  intros Hdbg Hall. unfold run.
  induction Hall as [|[e' o] history He _ IH]; simpl; [done|].
  simpl in He. subst e'. by rewrite apply_op_stopped.
Qed.

(** *** The claims about the ledger *)

(** A record stored for [va] survives a chain of successful calls that
    never collapses, byte-changing or not, with its original byte; when the
    last call changes the byte, the record ends on its new byte. *)
Lemma patchset_seq_keeps_record e va calls :
  ∀ (patches : PatchesInfo) found d,
  patches !! modhashfromva e va = Some found →
  Forall (λ b, b = true) (patchset_seq uint_bits e patches va calls).1 →
  never_collapses uint_bits e patches va calls = true →
  (calls ≠ [] → (List.last calls d).1 ≠ (List.last calls d).2) →
  ∃ r, (patchset_seq uint_bits e patches va calls).2 !! modhashfromva e va
       = Some r
       ∧ oldbyte r = oldbyte found
       ∧ newbyte r = List.last (map snd calls) (newbyte found).
Proof.
  induction calls as [|[o n] rest IH];
    intros patches found d Hk Hok Hnc Hlast.
  - exists found. by simpl.
  - change (map snd ((o, n) :: rest)) with (n :: map snd rest).
    rewrite last_cons_default.
    assert ((List.last rest (o, n)).1 ≠ (List.last rest (o, n)).2) as Hl.
    { rewrite <- (last_cons_default _ d). by apply Hlast. }
    clear Hlast.
    cbn [patchset_seq never_collapses fst snd] in Hok, Hnc |- *.
    apply Forall_cons in Hok as [Hok1 Hok].
    apply andb_prop in Hnc as [Hn1 Hnc].
    apply bool_decide_eq_true_1 in Hn1. rewrite Hk in Hn1. simpl in Hn1.
    assert (oldbyte found ≠ n) as Hfn by congruence.
    destruct (decide (o = n)) as [->|Hon].
    + assert ((patchset uint_bits e patches va n n).2 = patches) as Heq.
      { unfold patchset. destruct (negb _ || negb _); [done|].
        by destruct (decide (n = n)). }
      rewrite Heq in Hok, Hnc |- *.
      destruct rest as [|c2 rest']; [done|].
      destruct (IH patches found (n, n) Hk Hok Hnc) as (r & Hr & Ho & Hn);
        [by intros _|].
      exists r. split; [done|]. split; [done|]. rewrite Hn.
      change (map snd (c2 :: rest')) with (c2.2 :: map snd rest').
      by rewrite !last_cons_default.
    + pose proof (patchset_consolidates _ _ _ _ _ _ Hok1 Hon Hk Hfn) as Heq.
      rewrite Heq in Hok, Hnc |- *.
      edestruct IH as (r & Hr & Ho & Hn);
        [apply lookup_insert_eq|done|done|by intros _|].
      exists r. by rewrite Hr, Ho, Hn.
Qed.

(** C1 (as amended).  Starting with no record for [va], a non-empty sequence
    of successful calls [patchset(va, o1, n1)], ..., [patchset(va, ok, nk)]
    whose first and last calls each pass a new byte different from their
    own old byte, and in which no call passes the stored original as its
    new byte, leaves for [va] a record whose [oldbyte] is [o1], the old
    byte of the first call, and whose [newbyte] is [nk], the new byte of
    the last call.  The calls in between may pass equal bytes. *)
Theorem patchset_chain_keeps_first_original e (patches : PatchesInfo) va
    o1 n1 rest :
  patches !! modhashfromva e va = None →
  o1 ≠ n1 →
  (List.last rest (o1, n1)).1 ≠ (List.last rest (o1, n1)).2 →
  Forall (λ b, b = true)
         (patchset_seq uint_bits e patches va ((o1, n1) :: rest)).1 →
  never_collapses uint_bits e patches va ((o1, n1) :: rest) = true →
  ∃ r, (patchset_seq uint_bits e patches va ((o1, n1) :: rest)).2
         !! modhashfromva e va = Some r
       ∧ oldbyte r = o1
       ∧ newbyte r = List.last (map snd rest) n1.
Proof.
  intros Hk Hon Hlast Hok Hnc.
  cbn [patchset_seq never_collapses fst snd] in Hok, Hnc |- *.
  apply Forall_cons in Hok as [Hok1 Hok].
  apply andb_prop in Hnc as [_ Hnc].
  pose proof (patchset_fresh _ _ _ _ _ Hok1 Hon Hk) as Heq.
  rewrite Heq in Hok, Hnc |- *.
  edestruct (patchset_seq_keeps_record e va rest) as (r & Hr & Ho & Hl);
    [apply lookup_insert_eq|done|done|intros _; exact Hlast|].
  exists r. by rewrite Hr, Ho, Hl.
Qed.

(** C5.  With no record for [va] and [o ≠ n], [patchset(va, o, n)] followed
    by [patchset(va, n, o)] leaves no record for [va]; the ledger is the
    one before the two calls. *)
Theorem patchset_self_undo e (patches : PatchesInfo) va o n :
  patches !! modhashfromva e va = None →
  o ≠ n →
  (patchset uint_bits e (patchset uint_bits e patches va o n).2 va n o).2
    !! modhashfromva e va = None
  ∧ (patchset uint_bits e (patchset uint_bits e patches va o n).2 va n o).2
    = patches.
Proof.
  intros Hk Hon.
  destruct (patchset uint_bits e patches va o n).1 eqn:Hok.
  - rewrite (patchset_fresh _ _ _ _ _ Hok Hon Hk).
    assert ((patchset uint_bits e
               (<[modhashfromva e va :=
                    {| mod_ := modnamefromaddr e va;
                       addr := uint uint_bits (va - modbasefromaddr e va);
                       oldbyte := o; newbyte := n |}]> patches)
               va n o).1 = true) as Hok2
      by (rewrite patchset_result in Hok |- *; done).
    erewrite patchset_undoes;
      [|done|done|apply lookup_insert_eq|done].
    rewrite delete_insert_id by done. done.
  - rewrite (patchset_refused _ _ _ _ _ Hok).
    rewrite patchset_result in Hok.
    assert ((patchset uint_bits e patches va n o).1 = false) as Hok2
      by (by rewrite patchset_result).
    by rewrite (patchset_refused _ _ _ _ _ Hok2).
Qed.

(** C8.  With a session active and [va] readable, [patchset(va, b, b)]
    returns true and the ledger is the one before the call: no record is
    created, altered or deleted. *)
Theorem patchset_same_byte_is_noop e (patches : PatchesInfo) va b :
  DbgIsDebugging e = true →
  memisvalidreadptr e va = true →
  patchset uint_bits e patches va b b = (true, patches).
Proof.
  intros Hdbg Hread. unfold patchset. rewrite Hdbg, Hread. simpl.
  by destruct (decide (b = b)).
Qed.

(** C9 (as amended).  After any history of [patchset], [patchdel],
    [patchdelrange] and [patchclear] calls on the empty ledger, each run in
    the environment of its moment, every record has [oldbyte ≠ newbyte]; so
    [patchget] with a null [patch] returns true exactly when a session is
    active and a record is stored at the key. *)
Theorem ledger_records_are_effective (history : list (Env * Op)) :
  all_effective (run uint_bits history)
  ∧ ∀ e va,
      (patchget uint_bits e (run uint_bits history) va false).1 = true
      ↔ DbgIsDebugging e = true
        ∧ is_Some (run uint_bits history !! modhashfromva e va).
Proof.
  assert (all_effective (run uint_bits history)) as Hinv
    by apply all_effective_foldl, all_effective_empty.
  split; [done|]. intros e va.
  unfold patchget. destruct (DbgIsDebugging e); simpl.
  - destruct (run uint_bits history !! modhashfromva e va) as [found|] eqn:Hk;
      simpl.
    + rewrite bool_decide_eq_true_2 by eauto. by split; eauto.
    + split; [done|]. by intros [_ [? ?]].
  - split; [done|]. by intros [? _].
Qed.

(** C3.  With a session active, [patchenum] with only [cbsize] stores the
    number of records times [sizeof(LOOPSINFO)], which is not that number
    times [sizeof(PATCHINFO)] as soon as there is a record and the two
    sizes differ; the filling call stores one record per entry. *)
Theorem patchenum_size_counts_loopsinfo sizeof_LOOPSINFO sizeof_PATCHINFO
    e (patches : PatchesInfo) :
  DbgIsDebugging e = true →
  (0 < size patches)%nat →
  sizeof_LOOPSINFO ≠ sizeof_PATCHINFO →
  0 ≤ Z.of_nat (size patches) * sizeof_LOOPSINFO < 2 ^ uint_bits →
  patchenum uint_bits sizeof_LOOPSINFO e patches false true =
    (true, None, Some (Z.of_nat (size patches) * sizeof_LOOPSINFO))
  ∧ Z.of_nat (size patches) * sizeof_LOOPSINFO
    ≠ Z.of_nat (size patches) * sizeof_PATCHINFO
  ∧ ∃ l, patchenum uint_bits sizeof_LOOPSINFO e patches true true =
           (true, Some l, None)
         ∧ length l = size patches.
Proof.
  intros Hdbg Hn Hsz Hrange. unfold patchenum. rewrite Hdbg. simpl.
  split; [|split].
  - unfold uint. by rewrite Z.mod_small.
  - intros Heq. apply Z.mul_reg_l in Heq; [done|lia].
  - eexists. split; [done|]. by rewrite length_map, length_entries.
Qed.

End LedgerFacts.

(** ** The file export *)

Section FileFacts.

Variables (e : Env) (f : FileEnv).

Lemma stores_app l1 l2 : stores (l1 ++ l2) = stores l1 ++ stores l2.
Proof. apply omap_app. Qed.

(** The patching loop counts and stores exactly the records whose address
    has a raw file offset, in the order of the list. *)
Lemma patchfile_loop_spec modname modbase LoadedSize FileMapVA patchlist :
  ∀ i st,
  let ptr p := ConvertVAtoFileOffsetEx f FileMapVA LoadedSize modbase (addr p) in
  let out := patchfile_loop f modname modbase LoadedSize FileMapVA i
                            patchlist st in
  patched out
  = patched st + Z.of_nat (length (filter (λ p, ptr p ≠ 0) patchlist))
  ∧ stores (done_ out)
    = stores (done_ st)
      ++ map (λ p, (ptr p, newbyte p)) (filter (λ p, ptr p ≠ 0) patchlist).
Proof.
  induction patchlist as [|p rest IH]; intros i st; simpl.
  - split; [lia|by rewrite app_nil_r].
  - destruct (decide (ConvertVAtoFileOffsetEx f FileMapVA LoadedSize modbase
                        (addr p) = 0)) as [Hnull|Hptr].
    + rewrite filter_cons_False by (simpl; tauto). apply IH.
    + rewrite filter_cons_True by done.
      destruct (IH (i + 1)
                  {| view := λ q,
                       if decide (q = ConvertVAtoFileOffsetEx f FileMapVA
                                        LoadedSize modbase (addr p))
                       then newbyte p else view st q;
                     patched := patched st + 1;
                     done_ := done_ st ++
                       [EvDprintf (i + 1) modname
                          (ConvertVAtoFileOffsetEx f FileMapVA LoadedSize
                             modbase (addr p) - FileMapVA)
                          (view st
                             (ConvertVAtoFileOffsetEx f FileMapVA LoadedSize
                                modbase (addr p)))
                          (oldbyte p) (newbyte p);
                        EvStore
                          (ConvertVAtoFileOffsetEx f FileMapVA LoadedSize
                             modbase (addr p)) (newbyte p)] |})
        as [Hn Hs].
      simpl in Hn, Hs. rewrite Hn, Hs. split.
      * simpl length. lia.
      * rewrite stores_app. simpl. by rewrite <- app_assoc.
Qed.

(** The module check of [patchfile] passes exactly when every record names
    the module of the first one, case aside. *)
Lemma module_check_passes (modname : string) (patchlist : list PATCHINFO) :
  existsb (λ p, negb (bool_decide (stricmp (mod_ p) modname = 0))) patchlist
  = false
  ↔ Forall (λ p, stricmp (mod_ p) modname = 0) patchlist.
Proof.
  induction patchlist as [|p rest IH]; simpl.
  - split; [by constructor|done].
  - rewrite Forall_cons, <- IH, orb_false_iff, negb_false_iff,
      bool_decide_eq_true. done.
Qed.

Lemma module_check_fails (patchlist : list PATCHINFO) first p q :
  head patchlist = Some first →
  p ∈ patchlist → q ∈ patchlist →
  stricmp (mod_ p) (mod_ q) ≠ 0 →
  existsb (λ r, negb (bool_decide (stricmp (mod_ r) (mod_ first) = 0)))
          patchlist = true.
Proof.
  intros _ Hp Hq Hpq. apply not_false_iff_true. intros Hno.
  apply module_check_passes in Hno.
  rewrite Forall_forall in Hno.
  apply Hpq, stricmp_lowered.
  pose proof (Hno p Hp) as H1. pose proof (Hno q Hq) as H2.
  apply stricmp_lowered in H1, H2. congruence.
Qed.

(** C6.  When two records of the list name modules that differ under
    [_stricmp], [patchfile] returns -1 with an empty log: no copy is made,
    no file is mapped and nothing is stored in a file.  Only the caller's
    error buffer, if there is one, receives the message. *)
Theorem patchfile_rejects_mixed_modules (patchlist : list PATCHINFO)
    szFileName error p q :
  p ∈ patchlist → q ∈ patchlist →
  stricmp (mod_ p) (mod_ q) ≠ 0 →
  ∃ first, head patchlist = Some first
    ∧ patchfile e f patchlist szFileName error
      = Returns (-1)
          (match error with
           | Some _ => Some ("not all patches are in module " +:+ mod_ first)
           | None => None
           end) [].
Proof.
  intros Hp Hq Hpq.
  destruct patchlist as [|first rest]; [by apply elem_of_nil in Hp|].
  exists first. split; [done|].
  unfold patchfile.
  rewrite (module_check_fails (first :: rest) first p q) by done.
  by destruct error.
Qed.

(** C7.  Whenever [patchfile] returns something else than -1 for a non-empty
    list, the copy was mapped, the value returned is the number of records
    whose address [ConvertVAtoFileOffsetEx] turns into a non-null pointer,
    and the stores into the mapped copy are the [newbyte]s of exactly those
    records, in order: a record with no raw offset is passed over and the
    ones after it are still patched. *)
Theorem patchfile_counts_translated first rest szFileName error ret err log :
  patchfile e f (first :: rest) szFileName error = Returns ret err log →
  ret ≠ -1 →
  ∃ LoadedSize FileMapVA content,
    StaticFileLoad f szFileName = Some (LoadedSize, FileMapVA, content)
    ∧ let ptr p :=
        ConvertVAtoFileOffsetEx f FileMapVA LoadedSize
          (modbasefromname e (mod_ first)) (addr p) in
      let written := filter (λ p, ptr p ≠ 0) (first :: rest) in
      ret = Z.of_nat (length written)
      ∧ stores log = map (λ p, (ptr p, newbyte p)) written.
Proof.
  unfold patchfile, fail_with, fail_unchecked. cbv beta iota zeta.
  intros Hrun Hret.
  destruct (existsb _ _); [by destruct error; simplify_eq|].
  destruct (decide _); [by destruct error; simplify_eq|].
  destruct (GetModuleFileNameExA f _) as [szOriginalName|];
    [|by destruct error; simplify_eq].
  destruct (CopyFileA f _ _); cbn [negb] in Hrun;
    [|by destruct error; simplify_eq].
  destruct (StaticFileLoad f szFileName) as [[[LoadedSize FileMapVA] content]|];
    [|by destruct error; simplify_eq].
  match type of Hrun with
  | context [patchfile_loop ?a ?b ?c ?d ?v ?i ?l ?st] =>
      pose proof (patchfile_loop_spec b c d v l i st) as Hloop;
      cbv zeta in Hloop; destruct Hloop as [Hn Hs];
      set (out := patchfile_loop a b c d v i l st) in *
  end.
  destruct (StaticFileUnload f _ _ _); cbn [negb] in Hrun;
    [|by destruct error; simplify_eq].
  injection Hrun as <- _ <-.
  exists LoadedSize, FileMapVA, content. split; [done|].
  cbv zeta. rewrite Hn, stores_app, Hs. split; [simpl patched; lia|].
  change (stores [EvFileUnload szFileName]) with (@nil (Z * Byte.byte)).
  by rewrite app_nil_r.
Qed.

(** X26.  [patchfile] stores through a null [error] only when
    [StaticFileLoad] fails: with a null [error] every other failure
    returns. *)
Lemma patchfile_null_store_only_on_load patchlist szFileName log :
  patchfile e f patchlist szFileName None = NullStore log →
  StaticFileLoad f szFileName = None.
Proof.
  unfold patchfile. destruct patchlist as [|first rest]; [done|].
  destruct (existsb _ _); [done|].
  destruct (decide _); [done|].
  destruct (GetModuleFileNameExA f _) as [szOriginalName|]; [|done].
  destruct (CopyFileA f _ _); [|done]. simpl.
  destruct (StaticFileLoad f szFileName) as [[[LoadedSize FileMapVA] content]|];
    [|done].
  by destruct (StaticFileUnload f _ _ _).
Qed.

(** C10.  When the records share one loaded module, its path is found and
    the copy is made but [StaticFileLoad] fails, [patchfile] called with a
    null [error] stores the message through the null pointer. *)
Theorem patchfile_null_error_on_load_failure first rest szFileName
    szOriginalName :
  Forall (λ p, stricmp (mod_ p) (mod_ first) = 0) (first :: rest) →
  modbasefromname e (mod_ first) ≠ 0 →
  GetModuleFileNameExA f (modbasefromname e (mod_ first))
    = Some szOriginalName →
  CopyFileA f szOriginalName szFileName = true →
  StaticFileLoad f szFileName = None →
  patchfile e f (first :: rest) szFileName None
  = NullStore [EvCopyFile szOriginalName szFileName; EvFileLoad szFileName].
Proof.
  intros Hsame Hbase Hpath Hcopy Hload. unfold patchfile.
  apply module_check_passes in Hsame. rewrite Hsame.
  destruct (decide _); [done|].
  by rewrite Hpath, Hcopy, Hload.
Qed.

End FileFacts.

(** ** The properties at work on the example session *)

Import Demo.

(** C1, as it is worded, fails: a call [patchset(va, 7, 7)] succeeds and
    passes no stored original, but it leaves the record of the call before
    it, whose [newbyte] is 2 and not 7. *)
Lemma patchset_chain_counterexample :
  ¬ ((∅ : PatchesInfo) !! modhashfromva session 4198400 = None →
     Forall (λ b, b = true)
       (patchset_seq 32 session ∅ 4198400
          [(Byte.x01, Byte.x02); (Byte.x07, Byte.x07)]).1 →
     never_collapses 32 session ∅ 4198400
       [(Byte.x01, Byte.x02); (Byte.x07, Byte.x07)] = true →
     ∃ r, (patchset_seq 32 session ∅ 4198400
             [(Byte.x01, Byte.x02); (Byte.x07, Byte.x07)]).2
            !! modhashfromva session 4198400 = Some r
          ∧ oldbyte r = Byte.x01
          ∧ newbyte r = Byte.x07).
Proof.
  intros Hclaim.
  destruct Hclaim as (r & Hr & _ & Hn).
  - reflexivity.
  - vm_compute. by repeat constructor.
  - reflexivity.
  - vm_compute in Hr. injection Hr as <-. discriminate Hn.
Qed.

(** A call that passes equal bytes as the first one breaks the claim as
    well: it records nothing, and the record the next call creates has that
    call's old byte. *)
Lemma patchset_chain_noop_first :
  (patchset_seq 32 session ∅ 4198400
     [(Byte.x07, Byte.x07); (Byte.x01, Byte.x02)]).1 = [true; true]
  ∧ never_collapses 32 session ∅ 4198400
      [(Byte.x07, Byte.x07); (Byte.x01, Byte.x02)] = true
  ∧ (patchset_seq 32 session ∅ 4198400
       [(Byte.x07, Byte.x07); (Byte.x01, Byte.x02)]).2
      !! modhashfromva session 4198400
    = Some {| mod_ := "app.exe"; addr := 4096;
              oldbyte := Byte.x01; newbyte := Byte.x02 |}.
Proof. by vm_compute. Qed.

(** A chain with a call in the middle that passes equal bytes: 0x90 to
    0xCC, 0xCC to 0xCC, then 0xCC to 0xE9. *)
Lemma patchset_chain_witness :
  ∃ r, (patchset_seq 32 session ∅ 4198400
          [(Byte.x90, Byte.xcc); (Byte.xcc, Byte.xcc);
           (Byte.xcc, Byte.xe9)]).2
         !! modhashfromva session 4198400 = Some r
       ∧ oldbyte r = Byte.x90
       ∧ newbyte r = Byte.xe9.
Proof.
  apply (patchset_chain_keeps_first_original 32 session ∅ 4198400
           Byte.x90 Byte.xcc [(Byte.xcc, Byte.xcc); (Byte.xcc, Byte.xe9)]).
  - reflexivity.
  - discriminate.
  - discriminate.
  - vm_compute. repeat constructor.
  - reflexivity.
Defined.

(** C2.  [patchdelrange(0x401000, 0x401001, false)], a range of one byte of
    app.exe, also erases the record of lib.dll that has the same offset:
    the loop compares offsets and never the module of a record. *)
Theorem patchdelrange_erases_other_module :
  two_patches !! 2952794112
    = Some {| mod_ := "lib.dll"; addr := 4096;
              oldbyte := Byte.x55; newbyte := Byte.xc3 |}
  ∧ modbasefromaddr session 4198400 = 4194304
  ∧ modbasefromaddr session 4198401 = 4194304
  ∧ modnamefromaddr session 4198400 = "app.exe"
  ∧ stricmp "lib.dll" "app.exe" ≠ 0
  ∧ (patchdelrange 32 session two_patches 4198400 4198401 false).1
      !! 2952794112 = None.
Proof. by vm_compute. Qed.

(** C4.  [patchdelrange(0, ~0, true)] empties the ledger, but the original
    byte of the record of app.exe (offset 0x1000, base 0x400000) is written
    at 0x1000, the offset plus the base address 0 resolves to, and not at
    0x401000. *)
Theorem patchdelrange_wildcard_restores_at_offset :
  entries one_patch
    = [(2684358656, {| mod_ := "app.exe"; addr := 4096;
                       oldbyte := Byte.x90; newbyte := Byte.xcc |})]
  ∧ modbasefromname session "app.exe" = 4194304
  ∧ patchdelrange 32 session one_patch 0 (uint 32 (-1)) true
    = (∅, [(4096, Byte.x90)]).
Proof. by vm_compute. Qed.

Lemma patchenum_size_witness :
  patchenum 32 276 session one_patch false true = (true, None, Some (1 * 276))
  ∧ 1 * 276 ≠ 1 * 264
  ∧ ∃ l, patchenum 32 276 session one_patch true true = (true, Some l, None)
         ∧ length l = 1%nat.
Proof.
  apply (patchenum_size_counts_loopsinfo 32 276 264 session one_patch).
  - reflexivity.
  - vm_compute. lia.
  - discriminate.
  - vm_compute. split; [discriminate|reflexivity].
Defined.

Lemma patchset_self_undo_witness :
  (patchset 32 session (patchset 32 session ∅ 4198400 Byte.x90 Byte.xcc).2
            4198400 Byte.xcc Byte.x90).2
    !! modhashfromva session 4198400 = None
  ∧ (patchset 32 session (patchset 32 session ∅ 4198400 Byte.x90 Byte.xcc).2
              4198400 Byte.xcc Byte.x90).2 = ∅.
Proof.
  apply (patchset_self_undo 32 session ∅ 4198400 Byte.x90 Byte.xcc).
  - reflexivity.
  - discriminate.
Defined.

Lemma patchset_same_byte_witness :
  patchset 32 session one_patch 4198400 Byte.xcc Byte.xcc = (true, one_patch).
Proof.
  apply (patchset_same_byte_is_noop 32 session one_patch 4198400 Byte.xcc);
    reflexivity.
Defined.

Lemma ledger_records_witness :
  (patchget 32 session
     (run 32 [(session, OpSet 4198400 Byte.x90 Byte.xcc);
              (session, OpSet 268439552 Byte.x55 Byte.xc3);
              (session, OpDel 268439552 false)])
     4198400 false).1 = true
  ↔ DbgIsDebugging session = true
    ∧ is_Some (run 32 [(session, OpSet 4198400 Byte.x90 Byte.xcc);
                       (session, OpSet 268439552 Byte.x55 Byte.xc3);
                       (session, OpDel 268439552 false)]
               !! modhashfromva session 4198400).
Proof.
  apply (ledger_records_are_effective 32
           [(session, OpSet 4198400 Byte.x90 Byte.xcc);
            (session, OpSet 268439552 Byte.x55 Byte.xc3);
            (session, OpDel 268439552 false)]).
Defined.

(** C9, as it is worded, fails: a record stored during a session is still
    in the ledger when the debuggee has stopped, and [patchget] with a null
    [patch] then returns false. *)
Lemma ledger_query_counterexample :
  ¬ ((patchget 32 stopped
        (run 32 [(session, OpSet 4198400 Byte.x90 Byte.xcc)])
        4198400 false).1 = true
     ↔ is_Some (run 32 [(session, OpSet 4198400 Byte.x90 Byte.xcc)]
                !! modhashfromva stopped 4198400)).
Proof.
  intros [_ Hback].
  assert (is_Some (run 32 [(session, OpSet 4198400 Byte.x90 Byte.xcc)]
                   !! modhashfromva stopped 4198400)) as Hrec
    by (vm_compute; eauto).
  specialize (Hback Hrec). discriminate Hback.
Qed.

(** Outside a session [patchget] answers false whatever the ledger holds
    (line 75): a record left over from a session is not reported. *)
Lemma patchget_refuses_when_stopped :
  (patchget 32 stopped one_patch 4198400 false).1 = false
  ∧ is_Some (one_patch !! modhashfromva stopped 4198400).
Proof. split; [reflexivity|]. vm_compute. eauto. Qed.

Lemma patchfile_mixed_witness :
  ∃ first, head mixed_records = Some first
    ∧ patchfile session files mixed_records "patched.exe" None
      = Returns (-1) None [].
Proof.
  apply (patchfile_rejects_mixed_modules session files mixed_records
           "patched.exe" None
           {| mod_ := "app.exe"; addr := 4198400;
              oldbyte := Byte.x90; newbyte := Byte.xcc |}
           {| mod_ := "lib.dll"; addr := 268439552;
              oldbyte := Byte.x55; newbyte := Byte.xc3 |}).
  - apply list_elem_of_here.
  - apply list_elem_of_further, list_elem_of_here.
  - vm_compute. discriminate.
Defined.

Lemma patchfile_counts_witness :
  ∃ log, patchfile session files app_records "patched.exe" None
         = Returns 2 None log
       ∧ stores log = [(117441536, Byte.xcc); (117441540, Byte.xeb)].
Proof.
  eexists. split; [vm_compute; reflexivity|].
  edestruct (patchfile_counts_translated session files
               {| mod_ := "app.exe"; addr := 4198400;
                  oldbyte := Byte.x90; newbyte := Byte.xcc |}
               [ {| mod_ := "app.exe"; addr := 4214784;
                    oldbyte := Byte.x00; newbyte := Byte.x01 |};
                 {| mod_ := "APP.EXE"; addr := 4198404;
                    oldbyte := Byte.x74; newbyte := Byte.xeb |} ]
               "patched.exe" None 2)
    as (LoadedSize & FileMapVA & content & Hload & _ & Hstores).
  - vm_compute. reflexivity.
  - discriminate.
  - vm_compute in Hload. injection Hload as <- <- <-.
    rewrite Hstores. vm_compute. reflexivity.
Defined.

Lemma patchfile_null_error_witness :
  patchfile session unmappable app_records "patched.exe" None
  = NullStore [EvCopyFile "C:/debuggee/app.exe" "patched.exe";
               EvFileLoad "patched.exe"].
Proof.
  apply (patchfile_null_error_on_load_failure session unmappable).
  - repeat (constructor; [reflexivity|]). constructor.
  - vm_compute. discriminate.
  - reflexivity.
  - reflexivity.
  - reflexivity.
Defined.

(** * Further properties of the ledger *)

Section LedgerMore.

Variable uint_bits : Z.

(** ** [patchset] *)

Lemma patchset_other_keys e (patches : PatchesInfo) va o n k :
  k ≠ modhashfromva e va →
  (patchset uint_bits e patches va o n).2 !! k = patches !! k.
Proof.
  intros Hk. unfold patchset.
  destruct (negb _ || negb _); [done|].
  destruct (decide (o = n)); [done|].
  destruct (patches !! modhashfromva e va) as [found|]; simpl.
  - destruct (decide _); simpl.
    + by rewrite lookup_delete_ne.
    + by rewrite lookup_insert_ne.
  - by rewrite lookup_insert_ne.
Qed.

(** X1.  However many times one address is patched, and whatever the calls
    return, the records stored at the keys of other addresses are the ones
    that were there before. *)
Theorem patchset_seq_frame e (patches : PatchesInfo) va calls k :
  k ≠ modhashfromva e va →
  (patchset_seq uint_bits e patches va calls).2 !! k = patches !! k.
Proof.
  intros Hk. revert patches.
  induction calls as [|c rest IH]; intros patches; simpl; [done|].
  by rewrite IH, patchset_other_keys.
Qed.

Lemma size_one_key (L L' : PatchesInfo) k :
  (∀ j, j ≠ k → L' !! j = L !! j) →
  (size L' ≤ S (size L) ∧ size L ≤ S (size L'))%nat.
Proof.
  intros Hsame.
  assert (delete k L' = delete k L) as Hdel.
  { apply map_eq. intros j. destruct (decide (j = k)) as [->|Hj].
    - by rewrite !lookup_delete_eq.
    - rewrite !lookup_delete_ne by done. by apply Hsame. }
  pose proof (map_size_delete k L) as H1.
  pose proof (map_size_delete k L') as H2.
  rewrite Hdel in H2. rewrite H2 in H1.
  destruct (L !! k), (L' !! k); simpl in H1; lia.
Qed.

(** X27.  However many times one address is patched, the number of records
    in the ledger moves by one at most. *)
Theorem patchset_seq_size e (patches : PatchesInfo) va calls :
  (size (patchset_seq uint_bits e patches va calls).2 ≤ S (size patches)
   ∧ size patches ≤ S (size (patchset_seq uint_bits e patches va calls).2))%nat.
Proof.
  apply (size_one_key _ _ (modhashfromva e va)).
  intros j Hj. revert patches.
  induction calls as [|c rest IH]; intros patches; simpl; [done|].
  by rewrite IH, patchset_other_keys.
Qed.

(** X2.  Once a record is stored for an address, [patchset] no longer looks
    at its [oldbyte] argument: two calls that differ only in it, both with
    an old byte different from the new one, return the same and leave the
    same ledger. *)
Theorem patchset_ignores_oldbyte_of_repatch e (patches : PatchesInfo) va
    o o' n :
  is_Some (patches !! modhashfromva e va) →
  o ≠ n → o' ≠ n →
  patchset uint_bits e patches va o n = patchset uint_bits e patches va o' n.
Proof.
  intros [found Hk] Ho Ho'. unfold patchset. rewrite Hk.
  destruct (negb _ || negb _); [done|].
  destruct (decide (o = n)); [done|].
  destruct (decide (o' = n)); [done|].
  by destruct (decide (oldbyte found = n)).
Qed.



(** ** [patchget] and [patchdel] against a fresh patch *)

Lemma uint_rebase a b a' b' :
  0 ≤ a - b < 2 ^ uint_bits →
  a' - b' = a - b →
  0 ≤ a' < 2 ^ uint_bits →
  uint uint_bits (uint uint_bits (a - b) + b') = a'.
Proof.
  intros Hoff Hsame Ha'. unfold uint.
  rewrite (Z.mod_small (a - b)) by done.
  replace (a - b + b') with a' by lia.
  by apply Z.mod_small.
Qed.

(** X4.  A patch recorded at [va] is found again after its module moved:
    asked in an environment where [va'] has the key and the offset that
    [va] had, [patchget] with a non-null [patch] returns true and hands out
    the record with the address [va'], the module name and the two bytes
    of the call that recorded it. *)
Theorem patchget_follows_module e e' (patches : PatchesInfo) va va' o n :
  (patchset uint_bits e patches va o n).1 = true →
  o ≠ n →
  patches !! modhashfromva e va = None →
  DbgIsDebugging e' = true →
  modhashfromva e' va' = modhashfromva e va →
  0 ≤ va - modbasefromaddr e va < 2 ^ uint_bits →
  va' - modbasefromaddr e' va' = va - modbasefromaddr e va →
  0 ≤ va' < 2 ^ uint_bits →
  patchget uint_bits e' (patchset uint_bits e patches va o n).2 va' true
  = (true, Some {| mod_ := modnamefromaddr e va; addr := va';
                   oldbyte := o; newbyte := n |}).
Proof.
  intros Hok Hon Hk Hdbg Hkey Hoff Hsame Hva'.
  rewrite (patchset_fresh uint_bits _ _ _ _ _ Hok Hon Hk).
  unfold patchget. rewrite Hdbg, Hkey, lookup_insert_eq. simpl.
  by rewrite (uint_rebase va (modbasefromaddr e va) va'
                (modbasefromaddr e' va')).
Qed.

(** X5.  Deleting with [restore] a patch that was recorded on a free key,
    possibly after its module moved, returns true, leaves the ledger as it
    was before the patch and asks for exactly one memory write: the old
    byte of the patch at the address the patched byte now has. *)
Theorem patchdel_restores_fresh_patch e e' (patches : PatchesInfo)
    va va' o n :
  (patchset uint_bits e patches va o n).1 = true →
  o ≠ n →
  patches !! modhashfromva e va = None →
  DbgIsDebugging e' = true →
  modhashfromva e' va' = modhashfromva e va →
  0 ≤ va - modbasefromaddr e va < 2 ^ uint_bits →
  va' - modbasefromaddr e' va' = va - modbasefromaddr e va →
  0 ≤ va' < 2 ^ uint_bits →
  patchdel uint_bits e' (patchset uint_bits e patches va o n).2 va' true
  = (true, patches, [(va', o)]).
Proof.
  intros Hok Hon Hk Hdbg Hkey Hoff Hsame Hva'.
  rewrite (patchset_fresh uint_bits _ _ _ _ _ Hok Hon Hk).
  unfold patchdel. rewrite Hdbg, Hkey, lookup_insert_eq. simpl.
  by rewrite (uint_rebase va (modbasefromaddr e va) va'
                (modbasefromaddr e' va')), delete_insert_id.
Qed.

(** X6.  A second [patchdel] of the same address in the same environment
    returns false, writes nothing and leaves the ledger of the first. *)
Theorem patchdel_twice e (patches : PatchesInfo) va restore restore' :
  patchdel uint_bits e (patchdel uint_bits e patches va restore).1.2 va
           restore'
  = (false, (patchdel uint_bits e patches va restore).1.2, []).
Proof.
  unfold patchdel.
  destruct (DbgIsDebugging e); simpl; [|done].
  destruct (patches !! modhashfromva e va) as [found|] eqn:Hk; simpl.
  - by rewrite lookup_delete_eq.
  - by rewrite Hk.
Qed.

(** X7.  Without [restore] neither [patchdel] nor [patchdelrange] asks for
    a memory write. *)
Theorem delete_without_restore_writes_nothing e (patches : PatchesInfo)
    va start end_ :
  (patchdel uint_bits e patches va false).2 = []
  ∧ (patchdelrange uint_bits e patches start end_ false).2 = [].
Proof.
  split.
  - unfold patchdel. destruct (DbgIsDebugging e); [|done]. simpl.
    by destruct (patches !! _).
  - unfold patchdelrange. destruct (DbgIsDebugging e); [|done]. simpl.
    destruct (decide _); [done|].
    by rewrite patchdelrange_body_writes.
Qed.

(** X8.  [patchdel], [patchdelrange] and [patchclear] only take records
    away: a record found in the ledger after one of them was there, at the
    same key and with the same content, before. *)
Theorem deletions_only_remove e (patches : PatchesInfo) va start end_
    restore name k r :
  (patchdel uint_bits e patches va restore).1.2 !! k = Some r
  ∨ (patchdelrange uint_bits e patches start end_ restore).1 !! k = Some r
  ∨ patchclear patches name !! k = Some r →
  patches !! k = Some r.
Proof.
  intros [Hr|[Hr|Hr]]; revert Hr.
  - unfold patchdel. destruct (DbgIsDebugging e); [|done]. simpl.
    destruct (patches !! modhashfromva e va); [|done]. simpl.
    intros Hr. by apply lookup_delete_Some in Hr as [_ Hr].
  - unfold patchdelrange. destruct (DbgIsDebugging e); [|done]. simpl.
    destruct (decide _); [done|].
    rewrite patchdelrange_body_ledger. apply erase_if_entries_subseteq.
  - unfold patchclear. destruct name as [[|c m]|];
      try (by rewrite lookup_empty).
    apply erase_if_entries_subseteq.
Qed.

(** ** [patchdelrange] *)

Lemma NoDup_entries_keys (patches : PatchesInfo) :
  NoDup (entries patches).*1.
Proof.
  unfold entries. rewrite merge_sort_Permutation.
  apply NoDup_fst_map_to_list.
Qed.

(** A loop that erases the selected entries shrinks the ledger by the
    number of entries it selects. *)
Lemma erase_if_fold_size hit (l : list (Z * PATCHINFO)) :
  ∀ ps : PatchesInfo,
  NoDup l.*1 →
  (∀ i, i ∈ l → ps !! i.1 = Some i.2) →
  (size (foldl (erase_if hit) ps l) + length (List.filter hit l))%nat
  = size ps.
Proof.
  induction l as [|i l IH]; intros ps Hnd Hin; simpl; [lia|].
  rewrite fmap_cons in Hnd. apply NoDup_cons in Hnd as [Hi Hnd].
  unfold erase_if at 2. destruct (hit i) eqn:Hh; simpl.
  - rewrite Nat.add_succ_r, IH; [| done |].
    + rewrite map_size_delete_Some
        by (rewrite (Hin i) by apply list_elem_of_here; eauto).
      assert (size ps ≠ 0%nat); [|lia].
      intros Hz. apply map_size_empty_inv in Hz. subst ps.
      specialize (Hin i (list_elem_of_here _ _)).
      by rewrite lookup_empty in Hin.
    + intros j Hj. rewrite lookup_delete_ne.
      * apply Hin. by apply list_elem_of_further.
      * intros Heq. apply Hi. rewrite Heq.
        by apply list_elem_of_fmap_2.
  - apply IH; [done|]. intros j Hj. apply Hin.
    by apply list_elem_of_further.
Qed.

Lemma patchdelrange_body_idle bDelAll modbase start end_ restore l st :
  (∀ i, i ∈ l → range_hit bDelAll start end_ i = false) →
  foldl (patchdelrange_body uint_bits bDelAll modbase start end_ restore)
        st l = st.
Proof.
  revert st. induction l as [|i l IH]; intros st Hno; simpl; [done|].
  unfold patchdelrange_body at 2.
  rewrite (Hno i) by apply list_elem_of_here.
  apply IH. intros j Hj. apply Hno. by apply list_elem_of_further.
Qed.

(** X9.  A range deletion that is not the wildcard, in a session, with
    [start] and [end] resolving to one base, keeps exactly the records
    whose offset lies outside the range of offsets from [start - base] to
    [end - base], the first included and the second not, and keeps them as
    they are; the module a record names plays no part. *)
Theorem patchdelrange_survivors e (patches : PatchesInfo) start end_
    restore k r :
  DbgIsDebugging e = true →
  modbasefromaddr e start = modbasefromaddr e end_ →
  ¬ (start = 0 ∧ end_ = uint uint_bits (-1)) →
  (patchdelrange uint_bits e patches start end_ restore).1 !! k = Some r
  ↔ patches !! k = Some r
    ∧ ¬ (uint uint_bits (start - modbasefromaddr e start) ≤ addr r
         < uint uint_bits (end_ - modbasefromaddr e start)).
Proof.
  intros Hdbg Hbase Hwild.
  rewrite patchdelrange_lookup by done.
  assert (bool_decide (start = 0)
          && bool_decide (end_ = uint uint_bits (-1)) = false) as ->.
  { do 2 case_bool_decide; simpl; try done. tauto. }
  unfold range_hit. simpl.
  destruct (patches !! k) as [r'|]; [|by split; [|intros [? _]]].
  do 2 case_bool_decide; simpl; split;
    try (intros [= <-]; split; [done|tauto]);
    try (by intros [[= <-] _]);
    try done; intros [[= <-] Hout]; tauto.
Qed.

(** X10.  The wildcard [patchdelrange(0, ~0, true)], in a session in which
    the addresses 0 and [~0] resolve to one base, empties the ledger and
    asks for one memory write per record, in key order: the old byte of the
    record at its offset plus that base. *)
Theorem patchdelrange_wildcard_restore_all e (patches : PatchesInfo) :
  DbgIsDebugging e = true →
  modbasefromaddr e 0 = modbasefromaddr e (uint uint_bits (-1)) →
  patchdelrange uint_bits e patches 0 (uint uint_bits (-1)) true
  = (∅, map (λ i : Z * PATCHINFO,
               (uint uint_bits (addr i.2 + modbasefromaddr e 0), oldbyte i.2))
            (entries patches))
  ∧ length (patchdelrange uint_bits e patches 0 (uint uint_bits (-1)) true).2
    = size patches.
Proof.
  intros Hdbg Hbase.
  assert ((patchdelrange uint_bits e patches 0 (uint uint_bits (-1)) true).1
          = ∅) as H1.
  { apply map_empty. intros k. rewrite patchdelrange_lookup by done.
    destruct (patches !! k); [|done].
    unfold range_hit. by rewrite !bool_decide_eq_true_2 by done. }
  assert ((patchdelrange uint_bits e patches 0 (uint uint_bits (-1)) true).2
          = map (λ i : Z * PATCHINFO,
                   (uint uint_bits (addr i.2 + modbasefromaddr e 0),
                    oldbyte i.2))
                (entries patches)) as H2.
  { unfold patchdelrange. rewrite Hdbg. simpl.
    destruct (decide _) as [Hne|_]; [done|].
    rewrite patchdelrange_body_writes. simpl. f_equal.
    rewrite !bool_decide_eq_true_2 by done. simpl.
    induction (entries patches) as [|i l IH]; simpl; [done|]. by f_equal. }
  split.
  - by rewrite (surjective_pairing (patchdelrange _ _ _ _ _ _)), H1, H2.
  - by rewrite H2, length_map, length_entries.
Qed.

(** X11.  A range deletion whose end offset is not above its start offset,
    and that is not the wildcard, removes nothing and writes nothing. *)
Theorem patchdelrange_empty_range e (patches : PatchesInfo) start end_
    restore :
  ¬ (start = 0 ∧ end_ = uint uint_bits (-1)) →
  uint uint_bits (end_ - modbasefromaddr e start)
    ≤ uint uint_bits (start - modbasefromaddr e start) →
  patchdelrange uint_bits e patches start end_ restore = (patches, []).
Proof.
  intros Hwild Hempty. unfold patchdelrange.
  destruct (DbgIsDebugging e); [|done]. simpl.
  destruct (decide _); [done|].
  apply patchdelrange_body_idle. intros i _.
  assert (bool_decide (start = 0)
          && bool_decide (end_ = uint uint_bits (-1)) = false) as ->.
  { do 2 case_bool_decide; simpl; try done. tauto. }
  unfold range_hit. simpl.
  set (lo := uint uint_bits (start - modbasefromaddr e start)) in *.
  set (hi := uint uint_bits (end_ - modbasefromaddr e start)) in *.
  do 2 case_bool_decide; simpl; try done. lia.
Qed.

(** X12.  With [restore], [patchdelrange] asks for exactly one memory write
    per record it removes: the records left and the writes asked for add up
    to the records there were. *)
Theorem patchdelrange_one_write_per_removal e (patches : PatchesInfo)
    start end_ :
  (size (patchdelrange uint_bits e patches start end_ true).1
   + length (patchdelrange uint_bits e patches start end_ true).2)%nat
  = size patches.
Proof.
  unfold patchdelrange.
  destruct (DbgIsDebugging e); simpl; [|lia].
  destruct (decide _); simpl; [lia|].
  rewrite patchdelrange_body_ledger, patchdelrange_body_writes. simpl.
  rewrite length_map.
  apply erase_if_fold_size; [apply NoDup_entries_keys|].
  intros [k r] Hin. by apply elem_of_entries.
Qed.

(** X13.  A range deletion with [restore] that is not the wildcard only
    writes inside the range it was given: when [start] and [end] lie at or
    above their common base and fit [uint], every memory write it asks for
    has its address from [start] on and below [end]. *)
Theorem patchdelrange_restores_inside_range e (patches : PatchesInfo)
    start end_ a b :
  ¬ (start = 0 ∧ end_ = uint uint_bits (-1)) →
  0 ≤ modbasefromaddr e start ≤ start →
  modbasefromaddr e start ≤ end_ →
  start < 2 ^ uint_bits → end_ < 2 ^ uint_bits →
  (a, b) ∈ (patchdelrange uint_bits e patches start end_ true).2 →
  start ≤ a < end_.
Proof.
  intros Hwild Hstart Hend Hs Ht. unfold patchdelrange.
  destruct (DbgIsDebugging e); simpl; [|by intros ?%elem_of_nil].
  destruct (decide _); simpl; [by intros ?%elem_of_nil|].
  rewrite patchdelrange_body_writes. simpl.
  assert (bool_decide (start = 0)
          && bool_decide (end_ = uint uint_bits (-1)) = false) as ->.
  { do 2 case_bool_decide; simpl; try done. tauto. }
  intros Hin. apply list_elem_of_In, in_map_iff in Hin as (i & Hi & Hin).
  apply filter_In in Hin as [_ Hhit].
  unfold range_hit in Hhit. simpl in Hhit.
  apply andb_prop in Hhit as [Hlo Hhi].
  apply bool_decide_eq_true_1 in Hlo, Hhi.
  unfold uint in *.
  set (M := 2 ^ uint_bits) in *.
  rewrite Z.mod_small in Hlo by lia.
  rewrite Z.mod_small in Hhi by lia.
  injection Hi as <- _.
  rewrite Z.mod_small by lia. lia.
Qed.

(** ** [patchclear] *)

Lemma patchclear_lookup (patches : PatchesInfo) name k :
  patchclear patches name !! k =
  match patches !! k with
  | Some r =>
      if match name with
         | None => true
         | Some m =>
             bool_decide (m = "") || bool_decide (stricmp (mod_ r) m = 0)
         end
      then None else Some r
  | None => None
  end.
Proof.
  unfold patchclear. destruct name as [[|c m]|].
  - rewrite lookup_empty. by destruct (patches !! k).
  - rewrite erase_if_entries_lookup. by destruct (patches !! k).
  - rewrite lookup_empty. by destruct (patches !! k).
Qed.

(** X14.  [patchclear] with a non-empty name keeps exactly the records
    whose module name differs from it by more than the case of letters, and
    keeps them as they are. *)
Theorem patchclear_survivors (patches : PatchesInfo) m k r :
  m ≠ "" →
  patchclear patches (Some m) !! k = Some r
  ↔ patches !! k = Some r ∧ lowered (mod_ r) ≠ lowered m.
Proof.
  intros Hm. rewrite patchclear_lookup.
  rewrite (bool_decide_eq_false_2 (m = "")) by done. simpl.
  rewrite <- stricmp_lowered.
  destruct (patches !! k) as [r'|]; [|by split; [|intros [? _]]].
  case_bool_decide; split.
  - done.
  - by intros [[= <-] ?].
  - by intros [= <-].
  - by intros [? _].
Qed.

(** X15.  [patchclear] does not tell apart two names that differ only in
    the case of letters. *)
Theorem patchclear_name_case (patches : PatchesInfo) m1 m2 :
  lowered m1 = lowered m2 →
  patchclear patches (Some m1) = patchclear patches (Some m2).
Proof.
  intros Hlow. apply map_eq. intros k. rewrite !patchclear_lookup.
  destruct (patches !! k) as [r|]; [|done].
  assert (bool_decide (m1 = "") = bool_decide (m2 = "")) as ->.
  { destruct m1, m2; simpl in Hlow; try done. }
  assert (bool_decide (stricmp (mod_ r) m1 = 0)
          = bool_decide (stricmp (mod_ r) m2 = 0)) as ->; [|done].
  apply bool_decide_ext. rewrite !stricmp_lowered. by rewrite Hlow.
Qed.

(** X16.  Clearing is idempotent and two clearings commute: the order in
    which modules are cleared does not matter. *)
Theorem patchclear_idempotent_commutes (patches : PatchesInfo) name name' :
  patchclear (patchclear patches name) name = patchclear patches name
  ∧ patchclear (patchclear patches name) name'
    = patchclear (patchclear patches name') name.
Proof.
  split; apply map_eq; intros k; rewrite !patchclear_lookup;
    destruct (patches !! k) as [r|]; try done.
  - by destruct (match name with None => _ | Some _ => _ end) eqn:H1;
      [|rewrite H1].
  - destruct (match name with None => _ | Some _ => _ end) eqn:H1;
      destruct (match name' with None => _ | Some _ => _ end) eqn:H2;
      rewrite ?H1, ?H2; done.
Qed.

(** X17.  After a successful [patchset] that changes the byte, clearing the
    module [modnamefromaddr] gives for the address leaves no record at the
    key of the address. *)
Theorem patchclear_removes_patched_module e (patches : PatchesInfo) va o n :
  (patchset uint_bits e patches va o n).1 = true →
  o ≠ n →
  patchclear (patchset uint_bits e patches va o n).2
             (Some (modnamefromaddr e va)) !! modhashfromva e va = None.
Proof.
  intros Hok Hon. rewrite patchclear_lookup.
  destruct (patches !! modhashfromva e va) as [found|] eqn:Hk.
  - destruct (decide (oldbyte found = n)) as [Hf|Hf].
    + rewrite (patchset_undoes uint_bits _ _ _ _ _ found) by done.
      by rewrite lookup_delete_eq.
    + rewrite (patchset_consolidates uint_bits _ _ _ _ _ found) by done.
      rewrite lookup_insert_eq. simpl.
      by rewrite (bool_decide_eq_true_2 _ (stricmp_refl _)), orb_true_r.
  - rewrite patchset_fresh by done.
    rewrite lookup_insert_eq. simpl.
    by rewrite (bool_decide_eq_true_2 _ (stricmp_refl _)), orb_true_r.
Qed.

(** ** [patchenum] *)

Lemma elem_of_enumerated e (patches : PatchesInfo) p :
  p ∈ map (λ i : Z * PATCHINFO,
             {| mod_ := mod_ i.2;
                addr := uint uint_bits
                          (addr i.2 + modbasefromname e (mod_ i.2));
                oldbyte := oldbyte i.2;
                newbyte := newbyte i.2 |})
          (entries patches)
  ↔ ∃ k r, patches !! k = Some r
      ∧ p = {| mod_ := mod_ r;
               addr := uint uint_bits (addr r + modbasefromname e (mod_ r));
               oldbyte := oldbyte r;
               newbyte := newbyte r |}.
Proof.
  rewrite list_elem_of_In, in_map_iff. split.
  - intros ([k r] & <- & Hin).
    apply list_elem_of_In, elem_of_entries in Hin. by exists k, r.
  - intros (k & r & Hk & ->). exists (k, r). split; [done|].
    by apply list_elem_of_In, elem_of_entries.
Qed.

(** X18.  In a session, [patchenum] with a non-null [patcheslist] returns
    true, stores nothing in [*cbsize] and stores one entry per record: the
    entries are exactly the records of the ledger, each with its offset
    turned into an address by adding the base [modbasefromname] gives for
    the module the record names. *)
Theorem patchenum_fills_every_record sizeof_LOOPSINFO e
    (patches : PatchesInfo) cbsize :
  DbgIsDebugging e = true →
  ∃ l, patchenum uint_bits sizeof_LOOPSINFO e patches true cbsize
       = (true, Some l, None)
     ∧ length l = size patches
     ∧ ∀ p, p ∈ l
         ↔ ∃ k r, patches !! k = Some r
             ∧ p = {| mod_ := mod_ r;
                      addr := uint uint_bits
                                (addr r + modbasefromname e (mod_ r));
                      oldbyte := oldbyte r;
                      newbyte := newbyte r |}.
Proof.
  intros Hdbg. unfold patchenum. rewrite Hdbg. simpl.
  eexists. split; [done|]. split.
  - by rewrite length_map, length_entries.
  - apply elem_of_enumerated.
Qed.

(** X19.  A patch recorded on a free key is enumerated with the address it
    was recorded at, its module name and its two bytes, as long as the
    module table is the same by name and by address. *)
Theorem patchenum_lists_fresh_patch sizeof_LOOPSINFO e
    (patches : PatchesInfo) va o n cbsize :
  (patchset uint_bits e patches va o n).1 = true →
  o ≠ n →
  patches !! modhashfromva e va = None →
  modbasefromname e (modnamefromaddr e va) = modbasefromaddr e va →
  0 ≤ va - modbasefromaddr e va < 2 ^ uint_bits →
  0 ≤ va < 2 ^ uint_bits →
  ∃ l, patchenum uint_bits sizeof_LOOPSINFO e
         (patchset uint_bits e patches va o n).2 true cbsize
       = (true, Some l, None)
     ∧ {| mod_ := modnamefromaddr e va; addr := va;
          oldbyte := o; newbyte := n |} ∈ l.
Proof.
  intros Hok Hon Hk Htable Hoff Hva.
  pose proof Hok as Hdbg. rewrite patchset_result in Hdbg.
  apply andb_prop in Hdbg as [Hdbg _].
  rewrite (patchset_fresh uint_bits _ _ _ _ _ Hok Hon Hk).
  unfold patchenum. rewrite Hdbg. simpl.
  eexists. split; [done|].
  apply elem_of_enumerated.
  eexists _, _. split; [apply lookup_insert_eq|]. simpl.
  rewrite Htable.
  by rewrite (uint_rebase va (modbasefromaddr e va) va
                (modbasefromaddr e va)).
Qed.

(** X20.  A history whose every operation ran with no debuggee leaves the
    ledger empty: outside a session nothing is recorded. *)
Theorem nothing_recorded_outside_session (history : list (Env * Op)) :
  Forall (λ s : Env * Op, DbgIsDebugging s.1 = false) history →
  run uint_bits history = ∅.
Proof.
  intros Hall. unfold run.
  induction Hall as [|[e o] history He _ IH]; simpl; [done|].
  simpl in He. by rewrite apply_op_stopped.
Qed.

End LedgerMore.

(** * Further properties of the file export *)

Section FileMore.

Variables (e : Env) (f : FileEnv).

(** The call once the copy is mapped: the loop runs, then the unload
    decides. *)
Lemma patchfile_mapped first rest szFileName error szOriginalName
    LoadedSize FileMapVA content :
  Forall (λ p, stricmp (mod_ p) (mod_ first) = 0) (first :: rest) →
  modbasefromname e (mod_ first) ≠ 0 →
  GetModuleFileNameExA f (modbasefromname e (mod_ first))
    = Some szOriginalName →
  CopyFileA f szOriginalName szFileName = true →
  StaticFileLoad f szFileName = Some (LoadedSize, FileMapVA, content) →
  patchfile e f (first :: rest) szFileName error
  = let st :=
      patchfile_loop f (mod_ first) (modbasefromname e (mod_ first))
        LoadedSize FileMapVA 0 (first :: rest)
        {| view := content; patched := 0;
           done_ := [EvCopyFile szOriginalName szFileName;
                     EvFileLoad szFileName] |} in
    if StaticFileUnload f szFileName LoadedSize FileMapVA
    then Returns (patched st) error (done_ st ++ [EvFileUnload szFileName])
    else fail_with error "StaticFileUnload failed"
           (done_ st ++ [EvFileUnload szFileName]).
Proof.
  intros Hsame Hbase Hpath Hcopy Hload. unfold patchfile.
  apply module_check_passes in Hsame. rewrite Hsame.
  destruct (decide _); [done|].
  rewrite Hpath, Hcopy, Hload. cbn [negb].
  by destruct (StaticFileUnload f _ _ _).
Qed.

(** The four ways a call can go: it fails before anything is done outside,
    it fails on the copy, it fails on the mapping, or the copy is mapped. *)
Lemma patchfile_paths patchlist szFileName error :
  (∃ msg,
     msg ∈ [ "no patches to apply";
             "not all patches are in module "
               +:+ default "" (mod_ <$> head patchlist);
             "failed to get base of module "
               +:+ default "" (mod_ <$> head patchlist);
             "failed to get module path of module "
               +:+ default "" (mod_ <$> head patchlist) ]
     ∧ patchfile e f patchlist szFileName error = fail_with error msg [])
  ∨ (∃ szOriginalName,
       patchfile e f patchlist szFileName error
       = fail_with error
           "failed to make a copy of the original file (patch target is in use?)"
           [EvCopyFile szOriginalName szFileName])
  ∨ (∃ szOriginalName,
       StaticFileLoad f szFileName = None
       ∧ patchfile e f patchlist szFileName error
         = fail_unchecked error "StaticFileLoad failed"
             [EvCopyFile szOriginalName szFileName; EvFileLoad szFileName])
  ∨ (∃ first rest szOriginalName LoadedSize FileMapVA content,
       patchlist = first :: rest
       ∧ Forall (λ p, stricmp (mod_ p) (mod_ first) = 0) (first :: rest)
       ∧ modbasefromname e (mod_ first) ≠ 0
       ∧ GetModuleFileNameExA f (modbasefromname e (mod_ first))
         = Some szOriginalName
       ∧ CopyFileA f szOriginalName szFileName = true
       ∧ StaticFileLoad f szFileName = Some (LoadedSize, FileMapVA, content)).
Proof.
  destruct patchlist as [|first rest].
  { left. eexists. split; [apply list_elem_of_here|done]. }
  destruct (existsb (λ p, negb (bool_decide (stricmp (mod_ p) (mod_ first) = 0)))
              (first :: rest)) eqn:Hcheck.
  { left. eexists. split; [apply list_elem_of_further, list_elem_of_here|].
    unfold patchfile. by rewrite Hcheck. }
  destruct (decide (modbasefromname e (mod_ first) = 0)) as [Hbase|Hbase].
  { left. eexists.
    split; [do 2 apply list_elem_of_further; apply list_elem_of_here|].
    unfold patchfile. rewrite Hcheck. by destruct (decide _). }
  destruct (GetModuleFileNameExA f (modbasefromname e (mod_ first)))
    as [szOriginalName|] eqn:Hpath.
  2:{ left. eexists.
      split; [do 3 apply list_elem_of_further; apply list_elem_of_here|].
      unfold patchfile. rewrite Hcheck. destruct (decide _); [done|].
      by rewrite Hpath. }
  destruct (CopyFileA f szOriginalName szFileName) eqn:Hcopy.
  2:{ right. left. exists szOriginalName.
      unfold patchfile. rewrite Hcheck. destruct (decide _); [done|].
      by rewrite Hpath, Hcopy. }
  destruct (StaticFileLoad f szFileName)
    as [[[LoadedSize FileMapVA] content]|] eqn:Hload.
  2:{ right. right. left. exists szOriginalName. split; [done|].
      unfold patchfile. rewrite Hcheck. destruct (decide _); [done|].
      by rewrite Hpath, Hcopy, Hload. }
  right. right. right.
  exists first, rest, szOriginalName, LoadedSize, FileMapVA, content.
  by rewrite <- module_check_passes.
Qed.

(** The loop only adds to the log. *)
Lemma patchfile_loop_log modname modbase LoadedSize FileMapVA patchlist :
  ∀ i st, ∃ more,
    done_ (patchfile_loop f modname modbase LoadedSize FileMapVA i
                          patchlist st) = done_ st ++ more.
Proof.
  induction patchlist as [|p rest IH]; intros i st; simpl.
  - exists []. by rewrite app_nil_r.
  - destruct (decide _).
    + apply IH.
    + edestruct IH as [more Hmore]. rewrite Hmore. simpl.
      eexists. by rewrite <- app_assoc.
Qed.

(** X21.  Whatever [patchfile] returns lies between -1 and the number of
    records it was given. *)
Theorem patchfile_return_bounds patchlist szFileName error ret err log :
  patchfile e f patchlist szFileName error = Returns ret err log →
  -1 ≤ ret ≤ Z.of_nat (length patchlist).
Proof.
  intros Hrun.
  destruct (patchfile_paths patchlist szFileName error)
    as [(msg & _ & Hp)|[(orig & Hp)|[(orig & _ & Hp)|Hp]]].
  - rewrite Hp in Hrun. unfold fail_with in Hrun.
    destruct error; simplify_eq; lia.
  - rewrite Hp in Hrun. unfold fail_with in Hrun.
    destruct error; simplify_eq; lia.
  - rewrite Hp in Hrun. unfold fail_unchecked in Hrun.
    destruct error; simplify_eq; lia.
  - destruct Hp as (first & rest & orig & LoadedSize & FileMapVA & content
                    & -> & Hsame & Hbase & Hpath & Hcopy & Hload).
    rewrite (patchfile_mapped _ _ _ _ _ _ _ _ Hsame Hbase Hpath Hcopy Hload)
      in Hrun.
    cbv zeta in Hrun.
    match type of Hrun with
    | context [patchfile_loop ?a ?b ?c ?d ?v ?i ?l ?st] =>
        pose proof (patchfile_loop_spec a b c d v l i st) as Hloop;
        cbv zeta in Hloop; destruct Hloop as [Hn _];
        set (out := patchfile_loop a b c d v i l st) in *
    end.
    pose proof (length_filter
                  (λ p, ConvertVAtoFileOffsetEx f FileMapVA LoadedSize
                          (modbasefromname e (mod_ first)) (addr p) ≠ 0)
                  (first :: rest)) as Hle.
    simpl patched in Hn.
    destruct (StaticFileUnload f _ _ _);
      [|unfold fail_with in Hrun; destruct error; simplify_eq; lia].
    injection Hrun as <- _ _. lia.
Qed.

(** X22.  With a non-null [error], [patchfile] always returns; a value other
    than -1 leaves the caller's buffer as it was, and -1 leaves one of the
    messages of [patchfile] in it. *)
Theorem patchfile_error_buffer patchlist szFileName buffer :
  ∃ ret err log,
    patchfile e f patchlist szFileName (Some buffer) = Returns ret err log
    ∧ (ret ≠ -1 → err = Some buffer)
    ∧ (ret = -1 →
       ∃ msg, err = Some msg
         ∧ msg ∈ [ "no patches to apply";
                   "not all patches are in module "
                     +:+ default "" (mod_ <$> head patchlist);
                   "failed to get base of module "
                     +:+ default "" (mod_ <$> head patchlist);
                   "failed to get module path of module "
                     +:+ default "" (mod_ <$> head patchlist);
                   "failed to make a copy of the original file (patch target is in use?)";
                   "StaticFileLoad failed";
                   "StaticFileUnload failed" ]).
Proof.
  destruct (patchfile_paths patchlist szFileName (Some buffer))
    as [(msg & Hmsg & Hp)|[(orig & Hp)|[(orig & _ & Hp)|Hp]]].
  - rewrite Hp. eexists _, _, _. split; [done|]. split; [done|].
    intros _. exists msg. split; [done|].
    apply list_elem_of_In in Hmsg. apply list_elem_of_In.
    simpl in *. tauto.
  - rewrite Hp. eexists _, _, _. split; [done|]. split; [done|].
    intros _. eexists. split; [done|].
    do 4 apply list_elem_of_further. apply list_elem_of_here.
  - rewrite Hp. eexists _, _, _. split; [done|]. split; [done|].
    intros _. eexists. split; [done|].
    do 5 apply list_elem_of_further. apply list_elem_of_here.
  - destruct Hp as (first & rest & orig & LoadedSize & FileMapVA & content
                    & -> & Hsame & Hbase & Hpath & Hcopy & Hload).
    rewrite (patchfile_mapped _ _ _ _ _ _ _ _ Hsame Hbase Hpath Hcopy Hload).
    cbv zeta.
    match goal with
    | |- context [patchfile_loop ?a ?b ?c ?d ?v ?i ?l ?st] =>
        pose proof (patchfile_loop_spec a b c d v l i st) as Hloop;
        cbv zeta in Hloop; destruct Hloop as [Hn _];
        set (out := patchfile_loop a b c d v i l st) in *
    end.
    simpl patched in Hn.
    destruct (StaticFileUnload f _ _ _).
    + eexists _, _, _. split; [done|]. split; [done|]. lia.
    + eexists _, _, _. split; [done|]. split; [done|].
      intros _. eexists. split; [done|].
      do 6 apply list_elem_of_further. apply list_elem_of_here.
Qed.

(** X23.  [patchfile] stores into a file only after it copied the file of
    the module to [szFileName] and mapped the copy: a log with a store in
    it starts with that copy and that mapping. *)
Theorem patchfile_stores_only_in_copy patchlist szFileName error ret err log :
  patchfile e f patchlist szFileName error = Returns ret err log →
  stores log ≠ [] →
  ∃ first szOriginalName more,
    head patchlist = Some first
    ∧ GetModuleFileNameExA f (modbasefromname e (mod_ first))
      = Some szOriginalName
    ∧ log = EvCopyFile szOriginalName szFileName
            :: EvFileLoad szFileName :: more.
Proof.
  intros Hrun Hstores.
  destruct (patchfile_paths patchlist szFileName error)
    as [(msg & _ & Hp)|[(orig & Hp)|[(orig & _ & Hp)|Hp]]].
  - rewrite Hp in Hrun. unfold fail_with in Hrun.
    by destruct error; simplify_eq.
  - rewrite Hp in Hrun. unfold fail_with in Hrun.
    by destruct error; simplify_eq.
  - rewrite Hp in Hrun. unfold fail_unchecked in Hrun.
    by destruct error; simplify_eq.
  - destruct Hp as (first & rest & orig & LoadedSize & FileMapVA & content
                    & -> & Hsame & Hbase & Hpath & Hcopy & Hload).
    rewrite (patchfile_mapped _ _ _ _ _ _ _ _ Hsame Hbase Hpath Hcopy Hload)
      in Hrun.
    cbv zeta in Hrun.
    match type of Hrun with
    | context [patchfile_loop ?a ?b ?c ?d ?v ?i ?l ?st] =>
        destruct (patchfile_loop_log b c d v l i st) as [more Hmore];
        set (out := patchfile_loop a b c d v i l st) in *
    end.
    simpl done_ in Hmore.
    exists first, orig, (more ++ [EvFileUnload szFileName]).
    split; [done|]. split; [done|].
    destruct (StaticFileUnload f _ _ _).
    + injection Hrun as _ _ <-. by rewrite Hmore.
    + unfold fail_with in Hrun.
      destruct error; simplify_eq; by rewrite Hmore.
Qed.

(** X24.  When the copy is mapped and patched but [StaticFileUnload] fails,
    [patchfile] returns -1 although every record with a raw offset was
    stored into the copy. *)
Theorem patchfile_unload_failure_after_stores first rest szFileName error
    szOriginalName LoadedSize FileMapVA content :
  Forall (λ p, stricmp (mod_ p) (mod_ first) = 0) (first :: rest) →
  modbasefromname e (mod_ first) ≠ 0 →
  GetModuleFileNameExA f (modbasefromname e (mod_ first))
    = Some szOriginalName →
  CopyFileA f szOriginalName szFileName = true →
  StaticFileLoad f szFileName = Some (LoadedSize, FileMapVA, content) →
  StaticFileUnload f szFileName LoadedSize FileMapVA = false →
  ∃ err log,
    patchfile e f (first :: rest) szFileName error = Returns (-1) err log
    ∧ err = (match error with
             | Some _ => Some "StaticFileUnload failed"
             | None => None
             end)
    ∧ stores log
      = map (λ p, (ConvertVAtoFileOffsetEx f FileMapVA LoadedSize
                     (modbasefromname e (mod_ first)) (addr p), newbyte p))
            (filter (λ p, ConvertVAtoFileOffsetEx f FileMapVA LoadedSize
                            (modbasefromname e (mod_ first)) (addr p) ≠ 0)
                    (first :: rest)).
Proof.
  intros Hsame Hbase Hpath Hcopy Hload Hunload.
  rewrite (patchfile_mapped _ _ _ _ _ _ _ _ Hsame Hbase Hpath Hcopy Hload).
  cbv zeta. rewrite Hunload.
  match goal with
  | |- context [patchfile_loop ?a ?b ?c ?d ?v ?i ?l ?st] =>
      pose proof (patchfile_loop_spec a b c d v l i st) as Hloop;
      cbv zeta in Hloop; destruct Hloop as [_ Hs];
      set (out := patchfile_loop a b c d v i l st) in *
  end.
  unfold fail_with.
  destruct error; eexists _, _; (split; [done|]); (split; [done|]);
    rewrite stores_app, Hs;
    change (stores [EvFileUnload szFileName]) with (@nil (Z * Byte.byte));
    by rewrite app_nil_r.
Qed.

(** X25.  When no record has a raw offset, a call that gets through still
    copies the file, maps and unmaps the copy, stores nothing and returns
    0. *)
Theorem patchfile_nothing_to_store first rest szFileName error
    szOriginalName LoadedSize FileMapVA content :
  Forall (λ p, stricmp (mod_ p) (mod_ first) = 0) (first :: rest) →
  modbasefromname e (mod_ first) ≠ 0 →
  GetModuleFileNameExA f (modbasefromname e (mod_ first))
    = Some szOriginalName →
  CopyFileA f szOriginalName szFileName = true →
  StaticFileLoad f szFileName = Some (LoadedSize, FileMapVA, content) →
  StaticFileUnload f szFileName LoadedSize FileMapVA = true →
  Forall (λ p, ConvertVAtoFileOffsetEx f FileMapVA LoadedSize
                 (modbasefromname e (mod_ first)) (addr p) = 0)
         (first :: rest) →
  patchfile e f (first :: rest) szFileName error
  = Returns 0 error [EvCopyFile szOriginalName szFileName;
                     EvFileLoad szFileName; EvFileUnload szFileName].
Proof.
  intros Hsame Hbase Hpath Hcopy Hload Hunload Hnone.
  rewrite (patchfile_mapped _ _ _ _ _ _ _ _ Hsame Hbase Hpath Hcopy Hload).
  cbv zeta. rewrite Hunload.
  assert (∀ l i st,
            Forall (λ p, ConvertVAtoFileOffsetEx f FileMapVA LoadedSize
                           (modbasefromname e (mod_ first)) (addr p) = 0) l →
            patchfile_loop f (mod_ first) (modbasefromname e (mod_ first))
              LoadedSize FileMapVA i l st = st) as Hidle.
  { induction l as [|p l IH]; intros i st Hl; simpl; [done|].
    apply Forall_cons in Hl as [Hp Hl].
    destruct (decide _); [by apply IH|done]. }
  by rewrite Hidle.
Qed.

End FileMore.

(** ** The further properties at work on the example session *)

Lemma patchset_seq_frame_witness :
  (patchset_seq 32 session two_patches 4198400
     [(Byte.xcc, Byte.xe9); (Byte.xe9, Byte.x90)]).2 !! 2952794112
  = two_patches !! 2952794112.
Proof.
  apply (patchset_seq_frame 32 session two_patches 4198400
           [(Byte.xcc, Byte.xe9); (Byte.xe9, Byte.x90)] 2952794112).
  vm_compute. discriminate.
Defined.

Lemma patchset_ignores_oldbyte_witness :
  patchset 32 session one_patch 4198400 Byte.x00 Byte.xe9
  = patchset 32 session one_patch 4198400 Byte.xcc Byte.xe9.
Proof.
  apply (patchset_ignores_oldbyte_of_repatch 32 session one_patch 4198400
           Byte.x00 Byte.xcc Byte.xe9).
  - unfold is_Some. eexists. vm_compute. reflexivity.
  - discriminate.
  - discriminate.
Defined.


Lemma patchget_follows_module_witness :
  patchget 32 reloaded (patchset 32 session ∅ 4198400 Byte.x90 Byte.xcc).2
           5246976 true
  = (true, Some {| mod_ := "app.exe"; addr := 5246976;
                   oldbyte := Byte.x90; newbyte := Byte.xcc |}).
Proof.
  apply (patchget_follows_module 32 session reloaded ∅ 4198400 5246976
           Byte.x90 Byte.xcc).
  - reflexivity.
  - discriminate.
  - reflexivity.
  - reflexivity.
  - reflexivity.
  - vm_compute. split; [discriminate|reflexivity].
  - reflexivity.
  - vm_compute. split; [discriminate|reflexivity].
Defined.

Lemma patchdel_restores_witness :
  patchdel 32 reloaded (patchset 32 session ∅ 4198400 Byte.x90 Byte.xcc).2
           5246976 true
  = (true, ∅, [(5246976, Byte.x90)]).
Proof.
  apply (patchdel_restores_fresh_patch 32 session reloaded ∅ 4198400 5246976
           Byte.x90 Byte.xcc).
  - reflexivity.
  - discriminate.
  - reflexivity.
  - reflexivity.
  - reflexivity.
  - vm_compute. split; [discriminate|reflexivity].
  - reflexivity.
  - vm_compute. split; [discriminate|reflexivity].
Defined.

Lemma deletions_only_remove_witness :
  two_patches !! 2684358656
  = Some {| mod_ := "app.exe"; addr := 4096;
            oldbyte := Byte.x90; newbyte := Byte.xcc |}.
Proof.
  apply (deletions_only_remove 32 session two_patches 268439552 0 0 false
           None 2684358656).
  left. vm_compute. reflexivity.
Defined.

Lemma patchdelrange_survivors_witness :
  (patchdelrange 32 session two_patches 4198400 4198401 false).1
    !! 2684358656
  = Some {| mod_ := "app.exe"; addr := 4096;
            oldbyte := Byte.x90; newbyte := Byte.xcc |}
  ↔ two_patches !! 2684358656
    = Some {| mod_ := "app.exe"; addr := 4096;
              oldbyte := Byte.x90; newbyte := Byte.xcc |}
    ∧ ¬ (uint 32 (4198400 - modbasefromaddr session 4198400) ≤ 4096
         < uint 32 (4198401 - modbasefromaddr session 4198400)).
Proof.
  apply (patchdelrange_survivors 32 session two_patches 4198400 4198401
           false 2684358656
           {| mod_ := "app.exe"; addr := 4096;
              oldbyte := Byte.x90; newbyte := Byte.xcc |}).
  - reflexivity.
  - reflexivity.
  - intros [H _]. discriminate H.
Defined.

Lemma patchdelrange_wildcard_witness :
  patchdelrange 32 session two_patches 0 (uint 32 (-1)) true
  = (∅, map (λ i : Z * PATCHINFO,
               (uint 32 (addr i.2 + modbasefromaddr session 0), oldbyte i.2))
            (entries two_patches))
  ∧ length (patchdelrange 32 session two_patches 0 (uint 32 (-1)) true).2
    = size two_patches.
Proof.
  apply (patchdelrange_wildcard_restore_all 32 session two_patches);
    reflexivity.
Defined.

Lemma patchdelrange_empty_range_witness :
  patchdelrange 32 session two_patches 4198400 4198400 true
  = (two_patches, []).
Proof.
  apply (patchdelrange_empty_range 32 session two_patches 4198400 4198400
           true).
  - intros [H _]. discriminate H.
  - vm_compute. discriminate.
Defined.

Lemma patchdelrange_inside_range_witness : 4198400 ≤ 4198400 < 4202496.
Proof.
  apply (patchdelrange_restores_inside_range 32 session two_patches
           4198400 4202496 4198400 Byte.x90).
  - intros [H _]. discriminate H.
  - vm_compute. split; discriminate.
  - vm_compute. discriminate.
  - reflexivity.
  - reflexivity.
  - apply list_elem_of_In. vm_compute. left. reflexivity.
Defined.

Lemma patchclear_survivors_witness :
  patchclear two_patches (Some "APP.EXE") !! 2952794112
  = Some {| mod_ := "lib.dll"; addr := 4096;
            oldbyte := Byte.x55; newbyte := Byte.xc3 |}
  ↔ two_patches !! 2952794112
    = Some {| mod_ := "lib.dll"; addr := 4096;
              oldbyte := Byte.x55; newbyte := Byte.xc3 |}
    ∧ lowered "lib.dll" ≠ lowered "APP.EXE".
Proof.
  apply (patchclear_survivors two_patches "APP.EXE" 2952794112
           {| mod_ := "lib.dll"; addr := 4096;
              oldbyte := Byte.x55; newbyte := Byte.xc3 |}).
  discriminate.
Defined.

Lemma patchclear_name_case_witness :
  patchclear two_patches (Some "App.Exe")
  = patchclear two_patches (Some "app.exe").
Proof.
  apply (patchclear_name_case two_patches "App.Exe" "app.exe").
  reflexivity.
Defined.

Lemma patchclear_removes_patched_witness :
  patchclear (patchset 32 session one_patch 4198400 Byte.xcc Byte.xe9).2
             (Some (modnamefromaddr session 4198400))
    !! modhashfromva session 4198400 = None.
Proof.
  apply (patchclear_removes_patched_module 32 session one_patch 4198400
           Byte.xcc Byte.xe9).
  - reflexivity.
  - discriminate.
Defined.

Lemma patchenum_fills_witness :
  ∃ l, patchenum 32 276 session two_patches true false
       = (true, Some l, None)
     ∧ length l = size two_patches
     ∧ ∀ p, p ∈ l
         ↔ ∃ k r, two_patches !! k = Some r
             ∧ p = {| mod_ := mod_ r;
                      addr := uint 32 (addr r
                                       + modbasefromname session (mod_ r));
                      oldbyte := oldbyte r;
                      newbyte := newbyte r |}.
Proof.
  apply (patchenum_fills_every_record 32 276 session two_patches false).
  reflexivity.
Defined.

Lemma patchenum_lists_fresh_witness :
  ∃ l, patchenum 32 276 session
         (patchset 32 session one_patch 268439552 Byte.x55 Byte.xc3).2
         true true
       = (true, Some l, None)
     ∧ {| mod_ := modnamefromaddr session 268439552; addr := 268439552;
          oldbyte := Byte.x55; newbyte := Byte.xc3 |} ∈ l.
Proof.
  apply (patchenum_lists_fresh_patch 32 276 session one_patch 268439552
           Byte.x55 Byte.xc3 true).
  - reflexivity.
  - discriminate.
  - reflexivity.
  - reflexivity.
  - vm_compute. split; [discriminate|reflexivity].
  - vm_compute. split; [discriminate|reflexivity].
Defined.

Lemma nothing_recorded_witness :
  run 32 [(stopped, OpSet 4198400 Byte.x90 Byte.xcc);
          (stopped, OpDel 4198400 true);
          (stopped, OpClear (Some "app.exe"))] = ∅.
Proof.
  apply (nothing_recorded_outside_session 32).
  repeat constructor.
Defined.

Lemma patchfile_return_bounds_witness :
  -1 ≤ 2 ≤ Z.of_nat (length app_records).
Proof.
  eapply (patchfile_return_bounds session files app_records "patched.exe"
            None 2).
  vm_compute. reflexivity.
Defined.

Lemma patchfile_stores_only_in_copy_witness :
  ∃ log,
    patchfile session files app_records "patched.exe" None
    = Returns 2 None log
    ∧ ∃ first szOriginalName more,
        head app_records = Some first
        ∧ GetModuleFileNameExA files (modbasefromname session (mod_ first))
          = Some szOriginalName
        ∧ log = EvCopyFile szOriginalName "patched.exe"
                :: EvFileLoad "patched.exe" :: more.
Proof.
  eexists. split; [vm_compute; reflexivity|].
  eapply (patchfile_stores_only_in_copy session files app_records
            "patched.exe" None 2 None).
  - vm_compute. reflexivity.
  - vm_compute. discriminate.
Defined.

Lemma patchfile_unload_failure_witness :
  ∃ err log,
    patchfile session unflushable app_records "patched.exe"
              (Some "") = Returns (-1) err log
    ∧ err = Some "StaticFileUnload failed"
    ∧ stores log
      = map (λ p, (ConvertVAtoFileOffsetEx unflushable 117440512 12288
                     (modbasefromname session "app.exe") (addr p),
                   newbyte p))
            (filter (λ p, ConvertVAtoFileOffsetEx unflushable 117440512 12288
                            (modbasefromname session "app.exe") (addr p) ≠ 0)
                    app_records).
Proof.
  apply (patchfile_unload_failure_after_stores session unflushable
           {| mod_ := "app.exe"; addr := 4198400;
              oldbyte := Byte.x90; newbyte := Byte.xcc |}
           [ {| mod_ := "app.exe"; addr := 4214784;
                oldbyte := Byte.x00; newbyte := Byte.x01 |};
             {| mod_ := "APP.EXE"; addr := 4198404;
                oldbyte := Byte.x74; newbyte := Byte.xeb |} ]
           "patched.exe" (Some "") "C:/debuggee/app.exe"
           12288 117440512 (λ _, Byte.x00)).
  - repeat (constructor; [reflexivity|]). constructor.
  - vm_compute. discriminate.
  - reflexivity.
  - reflexivity.
  - reflexivity.
  - reflexivity.
Defined.

Lemma patchfile_nothing_to_store_witness :
  patchfile session files
    [ {| mod_ := "app.exe"; addr := 4214784;
         oldbyte := Byte.x00; newbyte := Byte.x01 |} ]
    "patched.exe" None
  = Returns 0 None [EvCopyFile "C:/debuggee/app.exe" "patched.exe";
                    EvFileLoad "patched.exe"; EvFileUnload "patched.exe"].
Proof.
  apply (patchfile_nothing_to_store session files
           {| mod_ := "app.exe"; addr := 4214784;
              oldbyte := Byte.x00; newbyte := Byte.x01 |}
           [] "patched.exe" None "C:/debuggee/app.exe"
           12288 117440512 (λ _, Byte.x00)).
  - repeat (constructor; [reflexivity|]). constructor.
  - vm_compute. discriminate.
  - reflexivity.
  - reflexivity.
  - reflexivity.
  - reflexivity.
  - repeat (constructor; [reflexivity|]). constructor.
Defined.

Lemma patchfile_null_store_witness :
  StaticFileLoad unmappable "patched.exe" = None.
Proof.
  eapply (patchfile_null_store_only_on_load session unmappable app_records
            "patched.exe").
  vm_compute. reflexivity.
Defined.
